(** * Minesweeper knowledge-based agent: shallow embedding and verification

    Embeds [Sentence] and [MinesweeperAI] of
    [01-knowledge/projects/minesweeper/minesweeper.py].

    - a cell is a pair of Python integers, [Z * Z];
    - a Python [set] of cells is a [gset cell]; a [for] loop over a set is a
      fold over [elements] (the iteration order of a Python set is not
      specified; the marking loops are shown to be insensitive to it);
    - a sentence count is an unbounded Python integer, [Z];
    - [self.knowledge] is a Python list of [Sentence] objects, each created
      by the constructor with its own copy of the cell set, so the list is
      modelled by value as [list Sentence];
    - the [while updated] loop is run with an explicit number of passes it
      may use; [None] means that the loop is still running after them. *)

From stdpp Require Import gmap sets list.
From Stdlib Require Import ZArith Lia.

Local Open Scope Z_scope.

Abbreviation cell := (Z * Z)%type.

(** ** class Sentence *)

Record Sentence := mkSentence { cells : gset cell; count : Z }.

Global Instance Sentence_eq_dec : EqDecision Sentence.
Proof. solve_decision. Defined.

Module Sent.

(** [Sentence.known_mines] *)
Definition known_mines (s : Sentence) : gset cell :=
  if decide (Z.of_nat (size (cells s)) = count s ∧ count s ≠ 0)
  then cells s else ∅.

(** [Sentence.known_safes] *)
Definition known_safes (s : Sentence) : gset cell :=
  if decide (count s = 0) then cells s else ∅.

(** [Sentence.mark_mine] *)
Definition mark_mine (c : cell) (s : Sentence) : Sentence :=
  if decide (c ∈ cells s)
  then {| cells := cells s ∖ {[c]}; count := count s - 1 |}
  else s.

(** [Sentence.mark_safe] *)
Definition mark_safe (c : cell) (s : Sentence) : Sentence :=
  if decide (c ∈ cells s)
  then {| cells := cells s ∖ {[c]}; count := count s |}
  else s.

End Sent.

(** ** class MinesweeperAI *)

Record AI := mkAI {
  height : Z;
  width : Z;
  moves_made : gset cell;
  mines : gset cell;
  safes : gset cell;
  knowledge : list Sentence
}.

(** [MinesweeperAI.__init__] *)
Definition init (h w : Z) : AI :=
  {| height := h; width := w; moves_made := ∅; mines := ∅; safes := ∅;
     knowledge := [] |}.

(** [MinesweeperAI.mark_mine] *)
Definition mark_mine (c : cell) (st : AI) : AI :=
  {| height := height st; width := width st; moves_made := moves_made st;
     mines := {[c]} ∪ mines st; safes := safes st;
     knowledge := Sent.mark_mine c <$> knowledge st |}.

(** [MinesweeperAI.mark_safe] *)
Definition mark_safe (c : cell) (st : AI) : AI :=
  {| height := height st; width := width st; moves_made := moves_made st;
     mines := mines st; safes := {[c]} ∪ safes st;
     knowledge := Sent.mark_safe c <$> knowledge st |}.

(** Python's [range(lo, hi)]. *)
Definition range (lo hi : Z) : list Z := seqZ lo (hi - lo).

(** The positions visited by the two nested [for] loops of [add_knowledge]
    around [(i, j)], in visiting order, without the cell itself (the
    [continue] of the first [if]). *)
Definition around (c : cell) : list cell :=
  filter (λ p, p ≠ c)
    (ni ← range (c.1 - 1) (c.1 + 2); nj ← range (c.2 - 1) (c.2 + 2); [(ni, nj)]).

(** [0 <= ni < self.height and 0 <= nj < self.width] *)
Definition in_bounds (h w : Z) (p : cell) : Prop :=
  0 <= p.1 < h ∧ 0 <= p.2 < w.

Global Instance in_bounds_dec h w p : Decision (in_bounds h w p).
Proof. unfold in_bounds. apply _. Defined.

(** First pair of loops of [add_knowledge]: the in-bounds neighbours that
    are neither known safe nor known mines. *)
Definition candidate_neighbors (st : AI) (c : cell) : gset cell :=
  foldl (λ acc p,
           if decide (in_bounds (height st) (width st) p)
           then if decide (p ∈ safes st ∨ p ∈ mines st) then acc
                else {[p]} ∪ acc
           else acc) ∅ (around c).

(** Second pair of loops: the count minus one for every in-bounds neighbour
    that is a known mine. *)
Definition adjusted_count (st : AI) (c : cell) (n : Z) : Z :=
  foldl (λ acc p,
           if decide (in_bounds (height st) (width st) p)
           then if decide (p ∈ mines st) then acc - 1 else acc
           else acc) n (around c).

Definition set_knowledge (k : list Sentence) (st : AI) : AI :=
  {| height := height st; width := width st; moves_made := moves_made st;
     mines := mines st; safes := safes st; knowledge := k |}.

(** Steps 1) to 3) of [add_knowledge]: everything before the [while]. *)
Definition ingest (c : cell) (n : Z) (st : AI) : AI :=
  let st1 :=
    mark_safe c
      {| height := height st; width := width st;
         moves_made := {[c]} ∪ moves_made st;
         mines := mines st; safes := safes st; knowledge := knowledge st |} in
  let neighbors := candidate_neighbors st1 c in
  let n' := adjusted_count st1 c n in
  if decide (0 < Z.of_nat (size neighbors))
  then set_knowledge (knowledge st1 ++ [mkSentence neighbors n']) st1
  else st1.

(** *** One pass of the [while updated] loop *)

(** The first [for] of the pass: the pending safes and mines. *)
Definition collect_safes (k : list Sentence) : gset cell :=
  foldl (λ acc s, acc ∪ Sent.known_safes s) ∅ k.

Definition collect_mines (k : list Sentence) : gset cell :=
  foldl (λ acc s, acc ∪ Sent.known_mines s) ∅ k.

(** [for safe in safes_to_add: if safe not in self.safes: ...], with the
    [updated] flag threaded. *)
Definition mark_new_safes (l : list cell) (su : AI * bool) : AI * bool :=
  foldl (λ su c, if decide (c ∈ safes su.1) then su
                 else (mark_safe c su.1, true)) su l.

Definition mark_new_mines (l : list cell) (su : AI * bool) : AI * bool :=
  foldl (λ su c, if decide (c ∈ mines su.1) then su
                 else (mark_mine c su.1, true)) su l.

(** The body of the two nested loops of step 5) for one pair. *)
Definition infer_pair (k : list Sentence) (news : list Sentence)
    (s1 s2 : Sentence) : list Sentence :=
  if decide (s1 = s2) then news
  else if decide (cells s1 ≠ ∅ ∧ cells s1 ⊆ cells s2) then
    let new_sentence :=
      mkSentence (cells s2 ∖ cells s1) (count s2 - count s1) in
    if decide ((new_sentence ∉ k) ∧ (new_sentence ∉ news)
               ∧ 0 < Z.of_nat (size (cells new_sentence)))
    then news ++ [new_sentence] else news
  else news.

(** The inner loop of step 5), [for sentence2 in self.knowledge]. *)
Definition infer_row (k news : list Sentence) (s1 : Sentence)
    (l2 : list Sentence) : list Sentence :=
  foldl (λ news s2, infer_pair k news s1 s2) news l2.

(** The outer loop, [for sentence1 in self.knowledge]. *)
Definition infer_rows (k news l1 l2 : list Sentence) : list Sentence :=
  foldl (λ news s1, infer_row k news s1 l2) news l1.

(** Step 5): the list [new_sentences] after both loops. *)
Definition infer (k : list Sentence) : list Sentence := infer_rows k [] k k.

(** The part of the [while] body before step 5): the state after the two
    marking loops, and [updated]. *)
Definition mark_phase (st : AI) : AI * bool :=
  let safes_to_add := collect_safes (knowledge st) in
  let mines_to_add := collect_mines (knowledge st) in
  mark_new_mines (elements mines_to_add)
    (mark_new_safes (elements safes_to_add) (st, false)).

(** Step 5) with its final [if new_sentences:]. *)
Definition infer_phase (su : AI * bool) : AI * bool :=
  match infer (knowledge su.1) with
  | [] => su
  | new_sentences =>
      (set_knowledge (knowledge su.1 ++ new_sentences) su.1, true)
  end.

(** One iteration of the [while] body; returns the state and [updated]. *)
Definition closure_pass (st : AI) : AI * bool := infer_phase (mark_phase st).

(** The [while updated] loop; [fuel] bounds the number of passes. *)
Fixpoint closure_loop (fuel : nat) (st : AI) : option AI :=
  match fuel with
  | O => None
  | S fuel' =>
      let '(st', updated) := closure_pass st in
      if updated then closure_loop fuel' st' else Some st'
  end.

(** The final list comprehension of [add_knowledge]. *)
Definition cleanup (st : AI) : AI :=
  set_knowledge (filter (λ s, cells s ≠ ∅) (knowledge st)) st.

(** [MinesweeperAI.add_knowledge]: [Some st'] when the call returns, with
    the agent as it leaves it; [None] when the loop is still running after
    [fuel] passes. *)
Definition add_knowledge (fuel : nat) (c : cell) (n : Z) (st : AI) : option AI :=
  cleanup <$> closure_loop fuel (ingest c n st).

(** [MinesweeperAI.make_safe_move]: the first cell of [self.safes], in the
    set's iteration order, that is not a move made. The method is given the
    agent and hands it back with the answer. *)
Definition make_safe_move (st : AI) : option cell * AI :=
  (snd <$> list_find (λ c, c ∉ moves_made st) (elements (safes st)), st).

(** [all_moves] of [make_random_move]. *)
Definition all_moves (st : AI) : gset cell :=
  list_to_set (i ← range 0 (height st); j ← range 0 (width st); [(i, j)]).

(** [MinesweeperAI.make_random_move]. [random.choice(choices)] is
    [choices[k]] for a [k] drawn below [len(choices)]; the draw is the
    argument [rnd], reduced below the length. *)
Definition make_random_move (rnd : nat) (st : AI) : option cell * AI :=
  let choices := elements (all_moves st ∖ moves_made st ∖ mines st) in
  match choices with
  | [] => (None, st)
  | _ => (choices !! (rnd mod length choices)%nat, st)
  end.

(** ** How a call ends

    No method of [MinesweeperAI] or [Sentence] has a [raise] or an [assert],
    and on cells that are pairs of integers none of the set, list and
    integer operations they use can raise. A call of [mark_mine] or
    [mark_safe] therefore always ends by returning, and so does a call of
    [add_knowledge] whose loop ends. *)
Inductive outcome (A : Type) : Type :=
  | Returned (a : A)
  | Raised.
Arguments Returned {A} a.
Arguments Raised {A}.

Definition call_mark_mine (c : cell) (st : AI) : outcome AI :=
  Returned (mark_mine c st).

Definition call_mark_safe (c : cell) (st : AI) : outcome AI :=
  Returned (mark_safe c st).


Definition call_add_knowledge (fuel : nat) (c : cell) (n : Z) (st : AI)
    : option (outcome AI) :=
  Returned <$> add_knowledge fuel c n st.

(** ** class Minesweeper

    The board of the game. [self.board] is a list of rows, each built by its
    own [row = []], so rows are not shared and the board is modelled by
    value. *)

(** [random.randrange(n)]: a draw below [n], or [ValueError] when the range
    is empty. The draw is the argument [r], reduced below [n]. *)
Definition randrange (n : Z) (r : nat) : outcome Z :=
  if decide (0 < n) then Returned (Z.of_nat r `mod` n) else Raised.

(** [l[i]] on a Python list: a negative index counts from the end, an index
    out of range raises [IndexError] ([None]). *)
Definition py_index {A : Type} (l : list A) (i : Z) : option A :=
  if decide (0 <= i) then l !! Z.to_nat i
  else if decide (- Z.of_nat (length l) <= i)
       then l !! Z.to_nat (Z.of_nat (length l) + i)
       else None.

(** The positions of a board of [h] rows and [w] columns, row by row. *)
Definition grid (h w : Z) : list cell :=
  i ← range 0 h; j ← range 0 w; [(i, j)].

Module Game.

Record t := mk {
  height : Z;
  width : Z;
  mines : gset cell;
  board : list (list bool);
  mines_found : gset cell
}.

(** [self.board[i][j]] where both indices are known not to be negative. *)
Definition cell_at (b : list (list bool)) (p : cell) : option bool :=
  b !! Z.to_nat p.1 ≫= λ row, row !! Z.to_nat p.2.

(** The two loops of [__init__] that build the field without mines. *)
Definition empty_board (h w : Z) : list (list bool) :=
  (λ _ : Z, (λ _ : Z, false) <$> range 0 w) <$> range 0 h.

(** [self.mines.add((i, j)); self.board[i][j] = True] *)
Definition add_mine (p : cell) (g : t) : t :=
  {| height := height g; width := width g;
     mines := {[p]} ∪ mines g;
     board := alter (λ row, <[Z.to_nat p.2 := true]> row) (Z.to_nat p.1)
                (board g);
     mines_found := mines_found g |}.

(** The [while len(self.mines) != mines] loop. Each pass uses one element
    of [draws], the two random draws of the pass; [None] means that the
    loop is still running when the draws are used up. *)
Fixpoint place_mines (draws : list (nat * nat)) (target : Z) (g : t)
    : option (outcome t) :=
  if decide (Z.of_nat (size (mines g)) = target) then Some (Returned g)
  else
    match draws with
    | [] => None
    | (r1, r2) :: draws' =>
        match randrange (height g) r1 with
        | Raised => Some Raised
        | Returned i =>
            match randrange (width g) r2 with
            | Raised => Some Raised
            | Returned j =>
                match cell_at (board g) (i, j) with
                | None => Some Raised
                | Some true => place_mines draws' target g
                | Some false => place_mines draws' target (add_mine (i, j) g)
                end
            end
        end
    end.

(** [Minesweeper.__init__] *)
Definition init (h w target : Z) (draws : list (nat * nat))
    : option (outcome t) :=
  place_mines draws target
    {| height := h; width := w; mines := ∅; board := empty_board h w;
       mines_found := ∅ |}.

(** [Minesweeper.is_mine] *)
Definition is_mine (g : t) (c : cell) : outcome bool :=
  match py_index (board g) c.1 ≫= λ row, py_index row c.2 with
  | Some b => Returned b
  | None => Raised
  end.

(** [Minesweeper.nearby_mines] *)
Definition nearby_mines (g : t) (c : cell) : outcome Z :=
  foldl (λ acc p,
           match acc with
           | Raised => Raised
           | Returned n =>
               if decide (in_bounds (height g) (width g) p)
               then match cell_at (board g) p with
                    | Some true => Returned (n + 1)
                    | Some false => Returned n
                    | None => Raised
                    end
               else Returned n
           end) (Returned 0) (around c).

(** [Minesweeper.won] *)
Definition won (g : t) : bool := bool_decide (mines_found g = mines g).

(** A board as [__init__] leaves it: [height] rows of [width] squares, a
    square is [True] exactly when its position is in [mines], and every
    mine is on the board. *)
Definition wf (g : t) : Prop :=
  length (board g) = Z.to_nat (height g) ∧
  Forall (λ row, length row = Z.to_nat (width g)) (board g) ∧
  (∀ p, in_bounds (height g) (width g) p →
        cell_at (board g) p = Some (bool_decide (p ∈ mines g))) ∧
  (∀ p, p ∈ mines g → in_bounds (height g) (width g) p).

End Game.

(** An agent none of whose sentences mentions a cell that is already known
    safe or known mine. *)
Definition tidy (st : AI) : Prop :=
  Forall (λ s, cells s ## safes st ∪ mines st) (knowledge st).

(** A sentence from which nothing can be read off directly. *)
Definition undecided (s : Sentence) : Prop :=
  cells s ≠ ∅ ∧ count s ≠ 0 ∧ count s ≠ Z.of_nat (size (cells s)).

(** ** Notions used to state the properties *)

(** The sentence the subset rule derives from [s1 ⊆ s2]. *)
Definition derived (s1 s2 : Sentence) : Sentence :=
  mkSentence (cells s2 ∖ cells s1) (count s2 - count s1).

(** [x] is staged by step 5) run on the rows [l1] and columns [l2]. *)
Definition staged_from (k l1 l2 : list Sentence) (x : Sentence) : Prop :=
  ∃ s1 s2, s1 ∈ l1 ∧ s2 ∈ l2 ∧ s1 ≠ s2 ∧ cells s1 ≠ ∅ ∧
    cells s1 ⊆ cells s2 ∧ x = derived s1 s2 ∧ (x ∉ k) ∧ cells x ≠ ∅.

(** The in-bounds neighbours of a cell (step 2 of the ingestion, as a set). *)
Definition neighbors (h w : Z) (c : cell) : gset cell :=
  list_to_set (filter (in_bounds h w) (around c)).

(** The sentence step 3) builds. *)
Definition observed (c : cell) (n : Z) (st : AI) : Sentence :=
  mkSentence
    (neighbors (height st) (width st) c ∖ ({[c]} ∪ safes st) ∖ mines st)
    (n - Z.of_nat (size (neighbors (height st) (width st) c ∩ mines st))).

(** The sentence invariant of the data model. *)
Definition sentence_ok (s : Sentence) : Prop :=
  0 <= count s <= Z.of_nat (size (cells s)).

(** *** Concrete knowledge bases *)

Definition c1 : cell := (0, 1).
Definition c2 : cell := (0, 2).
Definition c3 : cell := (0, 3).

(** [A = {1,2} = 1] and [B = {1,2,3} = 2]. *)
Definition kb_mine : AI :=
  set_knowledge [mkSentence {[c1; c2]} 1; mkSentence {[c1; c2; c3]} 2]
    (init 1 4).


(** *** Agreement with a board

    [M] is the set of cells that hold a mine. A sentence agrees with [M]
    when its count is the number of mines among its cells; an agent agrees
    with [M] when all its sentences do, no known safe cell is a mine and
    every known mine is one. *)
Definition sound_sentence (M : gset cell) (s : Sentence) : Prop :=
  count s = Z.of_nat (size (cells s ∩ M)).

Definition consistent (M : gset cell) (st : AI) : Prop :=
  Forall (sound_sentence M) (knowledge st) ∧ safes st ## M ∧ mines st ⊆ M.

(** What the board answers when [c] is revealed: [c] is not a mine and [n]
    is the number of mines among its in-bounds neighbours. *)
Definition truthful (M : gset cell) (h w : Z) (c : cell) (n : Z) : Prop :=
  c ∉ M ∧ n = Z.of_nat (size (neighbors h w c ∩ M)).

(** *** A bound on the number of passes

    [U] is a finite set that holds the cells of every sentence. A pass that
    marks a cell lowers [unmarked]; a pass that only stages sentences lowers
    [unseen], the number of subsets of [U] that are not yet the cell set of
    a sentence. *)
Fixpoint powerlist (l : list cell) : list (gset cell) :=
  match l with
  | [] => [∅]
  | x :: l' => powerlist l' ++ ((λ X, {[x]} ∪ X) <$> powerlist l')
  end.

Definition subsets (U : gset cell) : gset (gset cell) :=
  list_to_set (powerlist (elements U)).

Definition cellsets (st : AI) : gset (gset cell) :=
  list_to_set (cells <$> knowledge st).

Definition universe (st : AI) : gset cell := ⋃ (cells <$> knowledge st).

Definition within (U : gset cell) (st : AI) : Prop :=
  Forall (λ s, cells s ⊆ U) (knowledge st).

Definition unmarked (U : gset cell) (st : AI) : nat :=
  (size (U ∖ safes st) + size (U ∖ mines st))%nat.

Definition unseen (U : gset cell) (st : AI) : nat :=
  size (subsets U ∖ cellsets st).

Definition measure (U : gset cell) (st : AI) : nat :=
  (unmarked U st * S (size (subsets U)) + unseen U st)%nat.

(** *** Sequences of observations *)

(** [add_knowledge] called once per observation, in order. *)
Fixpoint observe_all (fuel : nat) (obs : list (cell * Z)) (st : AI)
    : option AI :=
  match obs with
  | [] => Some st
  | (c, n) :: obs' =>
      match add_knowledge fuel c n st with
      | Some st' => observe_all fuel obs' st'
      | None => None
      end
  end.

(** *** A run on which the loop never ends

    On a board of one row and four columns, cell [(0,0)] is reported with 2
    and then with 5 mines around it, and cell [(0,2)] with 4 and then with
    7. The first three calls return and leave [looping_start]. *)
Definition looping_obs : list (cell * Z) :=
  [((0, 0), 2); ((0, 0), 5); ((0, 2), 4)].

Definition looping_start : AI :=
  {| height := 1; width := 4;
     moves_made := {[(0, 0); (0, 2)]};
     mines := ∅;
     safes := {[(0, 0); (0, 2)]};
     knowledge :=
       [mkSentence {[c1]} 2; mkSentence {[c1]} 5; mkSentence {[c1; c3]} 4;
        mkSentence {[c3]} 2; mkSentence {[c3]} (-1)] |}.

(** The sentences of the run: the two over [{c1, c3}], and sentences over
    [{c1}] or [{c3}] whose count is 2 modulo 3. *)
Definition looping_sentence (s : Sentence) : Prop :=
  (cells s = {[c1; c3]} ∧ (count s = 4 ∨ count s = 7)) ∨
  ((cells s = {[c1]} ∨ cells s = {[c3]}) ∧ count s `mod` 3 = 2).

Global Instance looping_sentence_dec s : Decision (looping_sentence s).
Proof. unfold looping_sentence. apply _. Defined.

Definition looping (st : AI) : Prop :=
  Forall looping_sentence (knowledge st) ∧
  mkSentence {[c1; c3]} 4 ∈ knowledge st ∧
  mkSentence {[c1; c3]} 7 ∈ knowledge st ∧
  mkSentence {[c1]} 2 ∈ knowledge st.

Global Instance looping_dec st : Decision (looping st).
Proof. unfold looping. apply _. Defined.

(** *** Sequences of calls *)

Inductive call : Type :=
  | AddKnowledge (c : cell) (n : Z)
  | MarkSafe (c : cell)
  | MarkMine (c : cell).

Definition run_call (fuel : nat) (op : call) (st : AI) : option AI :=
  match op with
  | AddKnowledge c n => add_knowledge fuel c n st
  | MarkSafe c => Some (mark_safe c st)
  | MarkMine c => Some (mark_mine c st)
  end.

Fixpoint run_calls (fuel : nat) (ops : list call) (st : AI) : option AI :=
  match ops with
  | [] => Some st
  | op :: ops' =>
      match run_call fuel op st with
      | Some st' => run_calls fuel ops' st'
      | None => None
      end
  end.

(** A call that tells the truth about the board [M]. *)
Definition truthful_call (M : gset cell) (h w : Z) (op : call) : Prop :=
  match op with
  | AddKnowledge c n => truthful M h w c n
  | MarkSafe c => c ∉ M
  | MarkMine c => c ∈ M
  end.

(** The points an agent goes through: the three parts of [add_knowledge]
    (ingestion, one pass of the loop, the final clean-up) and the two
    marking methods, each truthful for [M]. *)
Inductive step (M : gset cell) : AI → AI → Prop :=
  | step_ingest c n st :
      truthful M (height st) (width st) c n → step M st (ingest c n st)
  | step_pass st : step M st (closure_pass st).1
  | step_cleanup st : step M st (cleanup st)
  | step_mark_safe c st : c ∉ M → step M st (mark_safe c st)
  | step_mark_mine c st : c ∈ M → step M st (mark_mine c st).

(** *** A concrete board

    One row of three squares with its only mine at [(0,2)], as
    [Minesweeper(1, 3, 1)] builds it when the draws are [0] and [2]. *)
Definition board_1x3 : Game.t :=
  {| Game.height := 1; Game.width := 3; Game.mines := {[(0, 2)]};
     Game.board := [[false; false; true]]; Game.mines_found := ∅ |}.

(** *** The state after a number of passes *)

Definition passes (k : nat) (st : AI) : AI :=
  Nat.iter k (λ s, (closure_pass s).1) st.


(** ** Basic facts about the embedding *)

Lemma elem_of_range x lo hi : x ∈ range lo hi ↔ lo <= x < hi.
Proof. unfold range. rewrite elem_of_seqZ. lia. Qed.

Lemma elem_of_grid (p : cell) (rows cols : list Z) :
  p ∈ (i ← rows; j ← cols; [(i, j)]) ↔ p.1 ∈ rows ∧ p.2 ∈ cols.
Proof.
  destruct p as [a b]. rewrite list_elem_of_bind. split.
  - intros (i & Hin & Hi). apply list_elem_of_bind in Hin as (j & Hin & Hj).
    apply list_elem_of_singleton in Hin. by simplify_eq.
  - intros [Ha Hb]. exists a. split; [|done].
    apply list_elem_of_bind. exists b. split; [|done].
    by apply list_elem_of_singleton.
Qed.

Lemma elem_of_all_moves st p :
  p ∈ all_moves st ↔ in_bounds (height st) (width st) p.
Proof.
  unfold all_moves, in_bounds.
  rewrite elem_of_list_to_set, elem_of_grid, !elem_of_range. done.
Qed.

Lemma elem_of_around c p :
  p ∈ around c ↔
  p ≠ c ∧ c.1 - 1 <= p.1 <= c.1 + 1 ∧ c.2 - 1 <= p.2 <= c.2 + 1.
Proof.
  unfold around.
  rewrite list_elem_of_filter, elem_of_grid, !elem_of_range.
  split; intros (? & ? & ?); split_and!; (done || lia).
Qed.

(** *** The marking methods *)

Lemma mark_mine_knowledge c st :
  knowledge (mark_mine c st) = Sent.mark_mine c <$> knowledge st.
Proof. done. Qed.

Lemma mark_safe_knowledge c st :
  knowledge (mark_safe c st) = Sent.mark_safe c <$> knowledge st.
Proof. done. Qed.

(** *** The two move queries *)

Lemma make_random_move_elem rnd st c :
  (make_random_move rnd st).1 = Some c →
  c ∈ all_moves st ∖ moves_made st ∖ mines st.
Proof.
  unfold make_random_move.
  destruct (elements _) as [|x l] eqn:E; simpl; [done|].
  intros Hc. apply list_elem_of_lookup_2 in Hc.
  rewrite <- E in Hc. by apply elem_of_elements in Hc.
Qed.

Lemma make_random_move_None rnd st :
  (make_random_move rnd st).1 = None ↔
  all_moves st ∖ moves_made st ∖ mines st = ∅.
Proof.
  unfold make_random_move.
  destruct (elements _) as [|x l] eqn:E; simpl.
  - split; [|done]. intros _. apply leibniz_equiv. by apply elements_empty_iff.
  - split.
    + intros Hn. apply lookup_ge_None in Hn.
      pose proof (Nat.mod_upper_bound rnd (length (x :: l))) as Hlt.
      simpl in *. lia.
    + intros He. rewrite He, elements_empty in E. done.
Qed.

(** ** The subset rule (step 5) *)

Lemma size_pos (X : gset cell) : 0 < Z.of_nat (size X) ↔ X ≠ ∅.
Proof.
  split.
  - intros H ->. rewrite size_empty in H. lia.
  - intros H. destruct (decide (size X = 0%nat)) as [E|E]; [|lia].
    apply size_empty_iff, leibniz_equiv in E. done.
Qed.

Lemma infer_pair_mono k news s1 s2 x :
  x ∈ news → x ∈ infer_pair k news s1 s2.
Proof.
  intros Hx. unfold infer_pair. repeat case_decide; try done.
  apply elem_of_app. by left.
Qed.

Lemma infer_row_mono k news s1 l2 x :
  x ∈ news → x ∈ infer_row k news s1 l2.
Proof.
  unfold infer_row. revert news. induction l2 as [|s2 l2 IH]; intros news Hx;
    simpl; [done|]. by apply IH, infer_pair_mono.
Qed.

Lemma infer_rows_mono k news l1 l2 x :
  x ∈ news → x ∈ infer_rows k news l1 l2.
Proof.
  unfold infer_rows. revert news. induction l1 as [|s1 l1 IH]; intros news Hx;
    simpl; [done|]. by apply IH, infer_row_mono.
Qed.

(** The pair [(A, B)] leaves its derived sentence in the knowledge base or
    in the staged list. *)
Lemma infer_pair_hit k news A B :
  cells A ≠ ∅ → cells A ⊆ cells B → cells B ∖ cells A ≠ ∅ →
  derived A B ∈ k ∨ derived A B ∈ infer_pair k news A B.
Proof.
  intros Hne Hsub Hdiff. unfold infer_pair.
  destruct (decide (A = B)) as [->|_]; [set_solver|].
  rewrite decide_True by done. fold (derived A B).
  destruct (decide (derived A B ∈ k)) as [?|Hk]; [by left|right].
  case_decide as Hd; [apply elem_of_app; right; by apply list_elem_of_singleton|].
  apply not_and_l in Hd as [Hd|Hd]; [done|].
  apply not_and_l in Hd as [Hd|Hd].
  - by apply dec_stable in Hd.
  - exfalso. apply Hd. by apply size_pos.
Qed.

Lemma infer_row_hit k news A B l2 :
  B ∈ l2 → cells A ≠ ∅ → cells A ⊆ cells B → cells B ∖ cells A ≠ ∅ →
  derived A B ∈ k ∨ derived A B ∈ infer_row k news A l2.
Proof.
  intros HB Hne Hsub Hdiff. revert news.
  induction l2 as [|s2 l2 IH]; intros news; [by apply elem_of_nil in HB|].
  apply elem_of_cons in HB as [<-|HB].
  - destruct (infer_pair_hit k news A B) as [?|?]; [done..|by left|right].
    by apply (infer_row_mono k _ A l2).
  - by apply IH.
Qed.

Lemma infer_rows_hit k news A B l1 l2 :
  A ∈ l1 → B ∈ l2 →
  cells A ≠ ∅ → cells A ⊆ cells B → cells B ∖ cells A ≠ ∅ →
  derived A B ∈ k ∨ derived A B ∈ infer_rows k news l1 l2.
Proof.
  intros HA HB Hne Hsub Hdiff. revert news.
  induction l1 as [|s1 l1 IH]; intros news; [by apply elem_of_nil in HA|].
  apply elem_of_cons in HA as [<-|HA].
  - destruct (infer_row_hit k news A B l2) as [?|?]; [done..|by left|right].
    by apply (infer_rows_mono k _ l1 l2).
  - by apply IH.
Qed.

(** Completeness of step 5): after it, the knowledge base extended with the
    staged sentences holds the difference of every nested pair. *)
Lemma infer_complete k A B :
  A ∈ k → B ∈ k →
  cells A ≠ ∅ → cells A ⊆ cells B → cells B ∖ cells A ≠ ∅ →
  derived A B ∈ k ++ infer k.
Proof.
  intros HA HB Hne Hsub Hdiff. apply elem_of_app.
  by apply infer_rows_hit.
Qed.

(** Soundness of step 5): every staged sentence is the difference of a
    nested pair of distinct sentences, has cells, and was not known. *)
Lemma infer_pair_sound k news s1 s2 x :
  x ∈ infer_pair k news s1 s2 → x ∈ news ∨ staged_from k [s1] [s2] x.
Proof.
  unfold infer_pair. repeat case_decide; try (by left).
  intros [?|Hx%list_elem_of_singleton]%elem_of_app; [by left|right].
  exists s1, s2. rewrite !list_elem_of_singleton.
  destruct_and!. split_and!; try done.
  - by subst x.
  - subst x. by apply size_pos.
Qed.

Lemma staged_from_weaken k l1 l2 l1' l2' x :
  l1 ⊆ l1' → l2 ⊆ l2' → staged_from k l1 l2 x → staged_from k l1' l2' x.
Proof.
  intros H1 H2 (s1 & s2 & ? & ? & ?). exists s1, s2. split_and!; set_solver.
Qed.

Lemma infer_row_sound k news s1 l2 x :
  x ∈ infer_row k news s1 l2 → x ∈ news ∨ staged_from k [s1] l2 x.
Proof.
  unfold infer_row. revert news. induction l2 as [|s2 l2 IH]; intros news;
    simpl; [by left|].
  intros [Hx|Hx]%IH.
  - apply infer_pair_sound in Hx as [?|Hx]; [by left|right].
    eapply staged_from_weaken; [..|exact Hx]; set_solver.
  - right. eapply staged_from_weaken; [..|exact Hx]; set_solver.
Qed.

Lemma infer_rows_sound k news l1 l2 x :
  x ∈ infer_rows k news l1 l2 → x ∈ news ∨ staged_from k l1 l2 x.
Proof.
  unfold infer_rows. revert news. induction l1 as [|s1 l1 IH]; intros news;
    simpl; [by left|].
  intros [Hx|Hx]%IH.
  - apply infer_row_sound in Hx as [?|Hx]; [by left|right].
    eapply staged_from_weaken; [..|exact Hx]; set_solver.
  - right. eapply staged_from_weaken; [..|exact Hx]; set_solver.
Qed.

Lemma infer_sound k x : x ∈ infer k → staged_from k k k x.
Proof.
  intros [Hx|Hx]%infer_rows_sound; [by apply elem_of_nil in Hx|done].
Qed.

(** ** The marking loops of a pass *)

Lemma elem_of_collect_safes k c :
  c ∈ collect_safes k ↔ ∃ s, s ∈ k ∧ c ∈ Sent.known_safes s.
Proof.
  unfold collect_safes.
  assert (∀ acc, c ∈ foldl (λ acc s, acc ∪ Sent.known_safes s) acc k ↔
                 c ∈ acc ∨ ∃ s, s ∈ k ∧ c ∈ Sent.known_safes s) as H.
  { induction k as [|s k IH]; intros acc; simpl.
    - split; [by left|]. intros [?|(s & []%elem_of_nil & _)]; done.
    - rewrite IH, elem_of_union. setoid_rewrite elem_of_cons. naive_solver. }
  rewrite H. set_solver.
Qed.

Lemma elem_of_collect_mines k c :
  c ∈ collect_mines k ↔ ∃ s, s ∈ k ∧ c ∈ Sent.known_mines s.
Proof.
  unfold collect_mines.
  assert (∀ acc, c ∈ foldl (λ acc s, acc ∪ Sent.known_mines s) acc k ↔
                 c ∈ acc ∨ ∃ s, s ∈ k ∧ c ∈ Sent.known_mines s) as H.
  { induction k as [|s k IH]; intros acc; simpl.
    - split; [by left|]. intros [?|(s & []%elem_of_nil & _)]; done.
    - rewrite IH, elem_of_union. setoid_rewrite elem_of_cons. naive_solver. }
  rewrite H. set_solver.
Qed.

Lemma known_safes_subseteq s : Sent.known_safes s ⊆ cells s.
Proof. unfold Sent.known_safes. case_decide; set_solver. Qed.

Lemma known_mines_subseteq s : Sent.known_mines s ⊆ cells s.
Proof. unfold Sent.known_mines. case_decide; set_solver. Qed.

(** Induction principles for the two loops: a property that holds before
    the loop and is kept by every marking holds after it. *)
Lemma mark_new_safes_ind (P : AI → bool → Prop) l st b :
  P st b →
  (∀ st b c, c ∈ l → P st b → c ∉ safes st → P (mark_safe c st) true) →
  P (mark_new_safes l (st, b)).1 (mark_new_safes l (st, b)).2.
Proof.
  unfold mark_new_safes. revert st b.
  induction l as [|c l IH]; intros st b H0 Hstep; simpl; [done|].
  case_decide; simpl.
  - apply IH; [done|]. intros st' b' c' Hin. apply (Hstep st' b'). by right.
  - apply IH; [apply (Hstep st b); [by left|done..]|].
    intros st' b' c' Hin. apply (Hstep st' b'). by right.
Qed.

Lemma mark_new_mines_ind (P : AI → bool → Prop) l st b :
  P st b →
  (∀ st b c, c ∈ l → P st b → c ∉ mines st → P (mark_mine c st) true) →
  P (mark_new_mines l (st, b)).1 (mark_new_mines l (st, b)).2.
Proof.
  unfold mark_new_mines. revert st b.
  induction l as [|c l IH]; intros st b H0 Hstep; simpl; [done|].
  case_decide; simpl.
  - apply IH; [done|]. intros st' b' c' Hin. apply (Hstep st' b'). by right.
  - apply IH; [apply (Hstep st b); [by left|done..]|].
    intros st' b' c' Hin. apply (Hstep st' b'). by right.
Qed.

(** The induction principle of the whole marking phase: the cells marked
    safe come from [known_safes] and those marked mines from [known_mines]
    of the sentences as they stand when the pass starts. *)
Lemma mark_phase_ind (P : AI → bool → Prop) st :
  P st false →
  (∀ st' b c, c ∈ collect_safes (knowledge st) → P st' b →
     c ∉ safes st' → P (mark_safe c st') true) →
  (∀ st' b c, c ∈ collect_mines (knowledge st) → P st' b →
     c ∉ mines st' → P (mark_mine c st') true) →
  P (mark_phase st).1 (mark_phase st).2.
Proof.
  intros H0 Hs Hm. unfold mark_phase.
  destruct (mark_new_safes _ (st, false)) as [st1 b1] eqn:E1.
  apply mark_new_mines_ind.
  - change st1 with (st1, b1).1. change b1 with (st1, b1).2 at 2.
    rewrite <- E1. apply mark_new_safes_ind; [done|].
    intros st' b' c' Hin%elem_of_elements. by apply (Hs st' b').
  - intros st' b' c' Hin%elem_of_elements. by apply (Hm st' b').
Qed.

(** A pass whose marking loops leave [updated] false has marked nothing. *)
Lemma mark_phase_false st : (mark_phase st).2 = false → (mark_phase st).1 = st.
Proof.
  apply (mark_phase_ind (λ st' b, b = false → st' = st)); done.
Qed.

Lemma mark_phase_frame st :
  height (mark_phase st).1 = height st ∧
  width (mark_phase st).1 = width st ∧
  moves_made (mark_phase st).1 = moves_made st ∧
  safes st ⊆ safes (mark_phase st).1 ∧
  mines st ⊆ mines (mark_phase st).1.
Proof.
  apply (mark_phase_ind (λ st' _,
    height st' = height st ∧ width st' = width st ∧
    moves_made st' = moves_made st ∧
    safes st ⊆ safes st' ∧ mines st ⊆ mines st')).
  - done.
  - intros st' _ c _ (? & ? & ? & ? & ?) _. simpl. split_and!; set_solver.
  - intros st' _ c _ (? & ? & ? & ? & ?) _. simpl. split_and!; set_solver.
Qed.

Lemma infer_phase_frame su :
  height (infer_phase su).1 = height su.1 ∧
  width (infer_phase su).1 = width su.1 ∧
  moves_made (infer_phase su).1 = moves_made su.1 ∧
  safes (infer_phase su).1 = safes su.1 ∧
  mines (infer_phase su).1 = mines su.1.
Proof. unfold infer_phase. by destruct (infer _). Qed.

Lemma infer_phase_knowledge su :
  knowledge (infer_phase su).1 = knowledge su.1 ++ infer (knowledge su.1).
Proof.
  unfold infer_phase. destruct (infer _); simpl; [by rewrite app_nil_r|done].
Qed.

Lemma infer_phase_false su : (infer_phase su).2 = false → infer_phase su = su.
Proof. unfold infer_phase. by destruct (infer _). Qed.

Lemma infer_phase_flag su :
  (infer_phase su).2 = su.2 || bool_decide (infer (knowledge su.1) ≠ []).
Proof.
  unfold infer_phase. destruct (infer _); simpl.
  - by rewrite orb_false_r.
  - by rewrite orb_true_r.
Qed.

(** A pass that leaves [updated] false leaves the agent as it was. *)
Lemma closure_pass_false st :
  (closure_pass st).2 = false → (closure_pass st).1 = st.
Proof.
  unfold closure_pass. intros Hf.
  rewrite (infer_phase_false _ Hf) in Hf |- *. by apply mark_phase_false.
Qed.

Lemma closure_pass_frame st :
  height (closure_pass st).1 = height st ∧
  width (closure_pass st).1 = width st ∧
  moves_made (closure_pass st).1 = moves_made st ∧
  safes st ⊆ safes (closure_pass st).1 ∧
  mines st ⊆ mines (closure_pass st).1.
Proof.
  unfold closure_pass.
  destruct (infer_phase_frame (mark_phase st)) as (-> & -> & -> & -> & ->).
  apply mark_phase_frame.
Qed.

(** *** The loop *)

Lemma closure_loop_S fuel st :
  closure_loop (S fuel) st =
  if (closure_pass st).2 then closure_loop fuel (closure_pass st).1
  else Some (closure_pass st).1.
Proof. simpl. by destruct (closure_pass st). Qed.

(** A larger allowance of passes does not change the result. *)
Lemma closure_loop_mono fuel fuel' st st' :
  closure_loop fuel st = Some st' → (fuel ≤ fuel')%nat →
  closure_loop fuel' st = Some st'.
Proof.
  revert fuel' st. induction fuel as [|fuel IH]; intros fuel' st; [done|].
  destruct fuel' as [|fuel']; [lia|]. rewrite !closure_loop_S.
  destruct (closure_pass st).2; [|done]. intros ??. apply IH; [done|lia].
Qed.

(** The loop ends in a state that a further pass leaves alone. *)
Lemma closure_loop_fixpoint fuel st st' :
  closure_loop fuel st = Some st' → closure_pass st' = (st', false).
Proof.
  revert st. induction fuel as [|fuel IH]; intros st; [done|].
  rewrite closure_loop_S. pose proof (closure_pass_false st) as Hst.
  destruct (closure_pass st) as [st1 b] eqn:Ep; simpl in *.
  destruct b; [apply IH|]. intros [= <-].
  rewrite Hst in Ep |- * by done. done.
Qed.

Lemma closure_loop_frame fuel st st' :
  closure_loop fuel st = Some st' →
  height st' = height st ∧ width st' = width st ∧
  moves_made st' = moves_made st ∧
  safes st ⊆ safes st' ∧ mines st ⊆ mines st'.
Proof.
  revert st. induction fuel as [|fuel IH]; intros st; [done|].
  rewrite closure_loop_S.
  pose proof (closure_pass_frame st) as (Hh & Hw & Hm & Hs & Hn).
  destruct (closure_pass st).2.
  - intros (-> & -> & -> & ? & ?)%IH. split_and!; try done; set_solver.
  - intros [= <-]. done.
Qed.

(** ** Ingestion of an observation (steps 1 to 3) *)

Lemma range_3 lo hi : hi = lo + 3 → range lo hi = [lo; lo + 1; lo + 2].
Proof.
  intros ->. unfold range. replace (lo + 3 - lo) with 3 by lia.
  unfold seqZ. change (Z.to_nat 3) with 3%nat. cbn [seq fmap list_fmap].
  replace (Z.of_nat 1 + lo) with (lo + 1) by lia.
  replace (Z.of_nat 2 + lo) with (lo + 2) by lia. done.
Qed.

Lemma around_explicit c :
  around c =
  filter (λ p, p ≠ c)
    [(c.1 - 1, c.2 - 1); (c.1 - 1, c.2 - 1 + 1); (c.1 - 1, c.2 - 1 + 2);
     (c.1 - 1 + 1, c.2 - 1); (c.1 - 1 + 1, c.2 - 1 + 1);
     (c.1 - 1 + 1, c.2 - 1 + 2);
     (c.1 - 1 + 2, c.2 - 1); (c.1 - 1 + 2, c.2 - 1 + 1);
     (c.1 - 1 + 2, c.2 - 1 + 2)].
Proof.
  unfold around. rewrite !(range_3 (_ - 1) (_ + 2)) by lia. done.
Qed.

Lemma NoDup_around c : NoDup (around c).
Proof.
  rewrite around_explicit. apply NoDup_filter.
  repeat (apply NoDup_cons; split;
    [rewrite ?elem_of_cons, elem_of_nil; intros H;
     repeat (destruct H as [H|H]); try done; inversion H; lia|]).
  apply NoDup_nil_2.
Qed.


Lemma elem_of_neighbors h w c p :
  p ∈ neighbors h w c ↔ p ∈ around c ∧ in_bounds h w p.
Proof.
  unfold neighbors. rewrite elem_of_list_to_set, list_elem_of_filter. tauto.
Qed.

(** The first pair of loops computes the undetermined neighbours. *)
Lemma candidate_neighbors_eq st c :
  candidate_neighbors st c =
  neighbors (height st) (width st) c ∖ safes st ∖ mines st.
Proof.
  unfold candidate_neighbors.
  assert (∀ (l : list cell) (acc : gset cell) (p : cell),
    p ∈ foldl (λ acc p,
           if decide (in_bounds (height st) (width st) p)
           then if decide (p ∈ safes st ∨ p ∈ mines st) then acc
                else {[p]} ∪ acc
           else acc) acc l ↔
    p ∈ acc ∨ (p ∈ l ∧ in_bounds (height st) (width st) p ∧
               p ∉ safes st ∧ p ∉ mines st)) as H.
  { induction l as [|x l IH]; intros acc p; simpl.
    - rewrite elem_of_nil. tauto.
    - rewrite IH, elem_of_cons. repeat case_decide; set_solver. }
  apply set_eq. intros p. rewrite H, !elem_of_difference, elem_of_neighbors.
  set_solver.
Qed.

(** The second pair of loops subtracts the number of neighbours that are
    known mines. *)
Lemma adjusted_count_eq st c n :
  adjusted_count st c n =
  n - Z.of_nat (size (neighbors (height st) (width st) c ∩ mines st)).
Proof.
  unfold adjusted_count, neighbors. generalize (NoDup_around c).
  generalize (around c). intros l Hnd. revert n.
  induction Hnd as [|x l Hx Hnd IH]; intros n.
  - simpl. replace (∅ ∩ mines st) with (∅ : gset cell) by set_solver.
    rewrite size_empty. lia.
  - rewrite filter_cons. cbn [foldl]. rewrite IH.
    destruct (decide (in_bounds (height st) (width st) x)) as [Hb|Hb]; [|done].
    rewrite list_to_set_cons. case_decide as Hm.
    + replace (({[x]} ∪ list_to_set (filter (in_bounds (height st) (width st)) l))
                 ∩ mines st)
        with ({[x]} ∪ (list_to_set (filter (in_bounds (height st) (width st)) l)
                 ∩ mines st) : gset cell) by set_solver.
      rewrite (size_union (C:=gset cell) {[x]}).
      * rewrite (size_singleton (C:=gset cell)). lia.
      * apply disjoint_singleton_l. rewrite elem_of_intersection,
          elem_of_list_to_set, list_elem_of_filter. tauto.
    + f_equal. f_equal. f_equal. set_solver.
Qed.

Lemma ingest_frame c n st :
  height (ingest c n st) = height st ∧
  width (ingest c n st) = width st ∧
  moves_made (ingest c n st) = {[c]} ∪ moves_made st ∧
  safes (ingest c n st) = {[c]} ∪ safes st ∧
  mines (ingest c n st) = mines st.
Proof. unfold ingest. destruct (decide _); done. Qed.

Lemma ingest_knowledge c n st :
  knowledge (ingest c n st) =
  (Sent.mark_safe c <$> knowledge st) ++
  (if decide (cells (observed c n st) ≠ ∅) then [observed c n st] else []).
Proof.
  unfold ingest. rewrite candidate_neighbors_eq, adjusted_count_eq. simpl.
  fold (observed c n st).
  case_decide as H1; case_decide as H2; rewrite size_pos in H1;
    simpl; rewrite ?app_nil_r; done.
Qed.

(** ** Agreement with a board is kept by every step *)

Section Board.
Context (M : gset cell).

Lemma sound_sentence_ok s : sound_sentence M s → sentence_ok s.
Proof.
  unfold sound_sentence, sentence_ok. intros ->.
  assert (size (cells s ∩ M) ≤ size (cells s))%nat
    by (apply subseteq_size; set_solver). lia.
Qed.

Lemma sound_mark_safe c s :
  c ∉ M → sound_sentence M s → sound_sentence M (Sent.mark_safe c s).
Proof.
  unfold sound_sentence, Sent.mark_safe. intros Hc Hs.
  case_decide; [|done]. simpl. rewrite Hs. do 2 f_equal. set_solver.
Qed.

Lemma sound_mark_mine c s :
  c ∈ M → sound_sentence M s → sound_sentence M (Sent.mark_mine c s).
Proof.
  unfold sound_sentence, Sent.mark_mine. intros Hc Hs.
  case_decide as Hin; [|done]. simpl. rewrite Hs.
  replace ((cells s ∖ {[c]}) ∩ M) with ((cells s ∩ M) ∖ {[c]}) by set_solver.
  pose proof (size_difference (cells s ∩ M) {[c]}) as Hd.
  rewrite (size_singleton (C:=gset cell)) in Hd.
  assert (size (cells s ∩ M) ≠ 0%nat).
  { rewrite size_empty_iff. set_solver. }
  rewrite Hd by set_solver. lia.
Qed.

Lemma sound_derived s1 s2 :
  cells s1 ⊆ cells s2 → sound_sentence M s1 → sound_sentence M s2 →
  sound_sentence M (derived s1 s2).
Proof.
  unfold sound_sentence, derived. intros Hsub H1 H2. simpl. rewrite H1, H2.
  replace ((cells s2 ∖ cells s1) ∩ M)
    with ((cells s2 ∩ M) ∖ (cells s1 ∩ M)) by set_solver.
  rewrite (size_difference (cells s2 ∩ M) (cells s1 ∩ M)) by set_solver.
  assert (size (cells s1 ∩ M) ≤ size (cells s2 ∩ M))%nat
    by (apply subseteq_size; set_solver). lia.
Qed.

(** A sentence that agrees with the board is determined by its cells. *)
Lemma sound_sentence_inj s1 s2 :
  sound_sentence M s1 → sound_sentence M s2 → cells s1 = cells s2 → s1 = s2.
Proof.
  unfold sound_sentence. destruct s1, s2; simpl. intros -> -> ->. done.
Qed.

Lemma known_safes_sound s c :
  sound_sentence M s → c ∈ Sent.known_safes s → c ∉ M.
Proof.
  unfold sound_sentence, Sent.known_safes. intros Hs.
  case_decide as H0; [|set_solver]. intros Hc HM.
  rewrite H0 in Hs. assert (size (cells s ∩ M) = 0%nat) as He by lia.
  apply size_empty_iff in He. set_solver.
Qed.

Lemma known_mines_sound s c :
  sound_sentence M s → c ∈ Sent.known_mines s → c ∈ M.
Proof.
  unfold sound_sentence, Sent.known_mines. intros Hs.
  case_decide as H0; [|set_solver]. destruct H0 as [H0 _]. intros Hc.
  assert (cells s ∩ M = cells s) as He.
  { apply set_subseteq_size_eq; [set_solver|lia]. }
  set_solver.
Qed.

Lemma mark_safe_consistent c st :
  c ∉ M → consistent M st → consistent M (mark_safe c st).
Proof.
  intros Hc (Hk & Hs & Hm). split_and!; simpl; [|set_solver..].
  apply Forall_fmap. eapply Forall_impl; [exact Hk|].
  intros s. by apply sound_mark_safe.
Qed.

Lemma mark_mine_consistent c st :
  c ∈ M → consistent M st → consistent M (mark_mine c st).
Proof.
  intros Hc (Hk & Hs & Hm). split_and!; simpl; [|set_solver..].
  apply Forall_fmap. eapply Forall_impl; [exact Hk|].
  intros s. by apply sound_mark_mine.
Qed.

Lemma mark_phase_consistent st :
  consistent M st → consistent M (mark_phase st).1.
Proof.
  intros Hst.
  apply (mark_phase_ind (λ st' _, consistent M st')); [done|..].
  - intros st' _ c (s & Hs & Hc)%elem_of_collect_safes Hst' _.
    apply mark_safe_consistent; [|done].
    eapply known_safes_sound; [|exact Hc].
    destruct Hst as [Hk _]. by eapply Forall_forall in Hk.
  - intros st' _ c (s & Hs & Hc)%elem_of_collect_mines Hst' _.
    apply mark_mine_consistent; [|done].
    eapply known_mines_sound; [|exact Hc].
    destruct Hst as [Hk _]. by eapply Forall_forall in Hk.
Qed.

Lemma infer_sound_sentences k :
  Forall (sound_sentence M) k → Forall (sound_sentence M) (infer k).
Proof.
  intros Hk. apply Forall_forall. intros x Hx.
  apply infer_sound in Hx as (s1 & s2 & H1 & H2 & _ & _ & Hsub & -> & _).
  rewrite Forall_forall in Hk. apply sound_derived; auto.
Qed.

Lemma infer_phase_consistent su :
  consistent M su.1 → consistent M (infer_phase su).1.
Proof.
  intros (Hk & Hs & Hm).
  destruct (infer_phase_frame su) as (_ & _ & _ & Es & Em).
  split_and!; [|by rewrite Es|by rewrite Em].
  rewrite infer_phase_knowledge. apply Forall_app. split; [done|].
  by apply infer_sound_sentences.
Qed.

Lemma closure_pass_consistent st :
  consistent M st → consistent M (closure_pass st).1.
Proof.
  intros Hst. by apply infer_phase_consistent, mark_phase_consistent.
Qed.

Lemma closure_loop_consistent fuel st st' :
  consistent M st → closure_loop fuel st = Some st' → consistent M st'.
Proof.
  revert st. induction fuel as [|fuel IH]; intros st Hst; [done|].
  rewrite closure_loop_S. apply closure_pass_consistent in Hst.
  destruct (closure_pass st).2; [by apply IH|]. by intros [= <-].
Qed.

Lemma cleanup_consistent st : consistent M st → consistent M (cleanup st).
Proof.
  intros (Hk & Hs & Hm). split_and!; [|done..]. simpl.
  apply Forall_forall. intros s [_ Hin]%list_elem_of_filter.
  rewrite Forall_forall in Hk. by apply Hk.
Qed.

(** The sentence built from a truthful observation agrees with the board. *)
Lemma observed_sound c n st :
  consistent M st → truthful M (height st) (width st) c n →
  sound_sentence M (observed c n st).
Proof.
  intros (Hk & Hs & Hm) [Hc ->]. unfold sound_sentence, observed. simpl.
  set (N := neighbors (height st) (width st) c).
  replace ((N ∖ ({[c]} ∪ safes st) ∖ mines st) ∩ M)
    with ((N ∩ M) ∖ (N ∩ mines st)) by set_solver.
  rewrite (size_difference (N ∩ M) (N ∩ mines st)) by set_solver.
  assert (size (N ∩ mines st) ≤ size (N ∩ M))%nat
    by (apply subseteq_size; set_solver). lia.
Qed.

Lemma ingest_consistent c n st :
  consistent M st → truthful M (height st) (width st) c n →
  consistent M (ingest c n st).
Proof.
  intros Hst Ht. pose proof (observed_sound c n st Hst Ht) as Ho.
  destruct Hst as (Hk & Hs & Hm). destruct Ht as [Hc _].
  destruct (ingest_frame c n st) as (_ & _ & _ & Es & Em).
  split_and!; [|rewrite Es; set_solver|by rewrite Em].
  rewrite ingest_knowledge. apply Forall_app. split.
  - apply Forall_fmap. eapply Forall_impl; [exact Hk|].
    intros s. by apply sound_mark_safe.
  - case_decide; by repeat constructor.
Qed.

Lemma add_knowledge_consistent fuel c n st st' :
  consistent M st → truthful M (height st) (width st) c n →
  add_knowledge fuel c n st = Some st' → consistent M st'.
Proof.
  intros Hst Ht. unfold add_knowledge.
  destruct (closure_loop _ _) as [st1|] eqn:E; [|done]. intros [= <-].
  apply cleanup_consistent. eapply closure_loop_consistent; [|exact E].
  by apply ingest_consistent.
Qed.

(** An agent that agrees with a board keeps the sentence invariant and
    never holds a cell as both safe and mine. *)
Lemma consistent_sentence_ok st s :
  consistent M st → s ∈ knowledge st → sentence_ok s.
Proof.
  intros [Hk _] Hs. rewrite Forall_forall in Hk. by apply sound_sentence_ok, Hk.
Qed.

Lemma consistent_disjoint st : consistent M st → safes st ## mines st.
Proof. intros (_ & Hs & Hm). set_solver. Qed.

End Board.

(** ** Termination of the loop on knowledge that agrees with a board *)

Lemma elem_of_powerlist (l : list cell) (X : gset cell) :
  X ⊆ list_to_set l → X ∈ powerlist l.
Proof.
  revert X. induction l as [|x l IH]; intros X HX; simpl.
  - apply list_elem_of_singleton. set_solver.
  - apply elem_of_app. destruct (decide (x ∈ X)) as [Hx|Hx].
    + right. apply list_elem_of_fmap. exists (X ∖ {[x]}). split.
      * apply set_eq. intros y. destruct (decide (y = x)); set_solver.
      * apply IH. set_solver.
    + left. apply IH. set_solver.
Qed.

Lemma elem_of_subsets (U X : gset cell) : X ⊆ U → X ∈ subsets U.
Proof.
  intros HX. unfold subsets. apply elem_of_list_to_set, elem_of_powerlist.
  intros y Hy. apply elem_of_list_to_set, elem_of_elements. by apply HX.
Qed.

Lemma elem_of_cellsets st X :
  X ∈ cellsets st ↔ ∃ s, s ∈ knowledge st ∧ cells s = X.
Proof.
  unfold cellsets. rewrite elem_of_list_to_set, list_elem_of_fmap.
  naive_solver.
Qed.

Lemma within_universe st : within (universe st) st.
Proof.
  apply Forall_forall. intros s Hs y Hy. unfold universe.
  apply elem_of_union_list. exists (cells s). split; [|done].
  by apply list_elem_of_fmap_2.
Qed.

Section Measure.
Context (U : gset cell).

Lemma within_mark_safe c st : within U st → within U (mark_safe c st).
Proof.
  unfold within. simpl. intros H. apply Forall_fmap.
  eapply Forall_impl; [exact H|]. intros s Hs. simpl.
  unfold Sent.mark_safe. case_decide; set_solver.
Qed.

Lemma within_mark_mine c st : within U st → within U (mark_mine c st).
Proof.
  unfold within. simpl. intros H. apply Forall_fmap.
  eapply Forall_impl; [exact H|]. intros s Hs. simpl.
  unfold Sent.mark_mine. case_decide; set_solver.
Qed.

Lemma within_mark_phase st : within U st → within U (mark_phase st).1.
Proof.
  intros H. apply (mark_phase_ind (λ st' _, within U st')); [done|..].
  - intros. by apply within_mark_safe.
  - intros. by apply within_mark_mine.
Qed.

Lemma within_infer_phase su : within U su.1 → within U (infer_phase su).1.
Proof.
  unfold within. rewrite infer_phase_knowledge. intros H.
  apply Forall_app. split; [done|]. apply Forall_forall. intros x Hx.
  apply infer_sound in Hx as (s1 & s2 & _ & H2 & _ & _ & _ & -> & _).
  rewrite Forall_forall in H. specialize (H _ H2). simpl in *. set_solver.
Qed.

Lemma within_closure_pass st : within U st → within U (closure_pass st).1.
Proof. intros. by apply within_infer_phase, within_mark_phase. Qed.

Lemma size_mark (S : gset cell) c :
  c ∈ U → c ∉ S → (size (U ∖ ({[c]} ∪ S)) + 1 = size (U ∖ S))%nat.
Proof.
  intros Hc Hn.
  replace (U ∖ S) with ({[c]} ∪ U ∖ ({[c]} ∪ S)).
  - rewrite (size_union {[c]}) by set_solver.
    rewrite (size_singleton (C:=gset cell)). lia.
  - apply set_eq. intros y. destruct (decide (y = c)); set_solver.
Qed.

(** Every marking of the pass uses up one unit of [unmarked]. *)
Lemma mark_phase_unmarked st :
  within U st →
  (unmarked U (mark_phase st).1 + (if (mark_phase st).2 then 1 else 0)
   ≤ unmarked U st)%nat.
Proof.
  intros HU. unfold within in HU. rewrite Forall_forall in HU.
  apply (mark_phase_ind (λ st' b,
    (unmarked U st' + (if b then 1 else 0) ≤ unmarked U st)%nat)); [lia|..].
  - intros st' b c (s & Hs & Hc)%elem_of_collect_safes Hle Hn.
    assert (c ∈ U) as HcU by (apply (HU s Hs), known_safes_subseteq, Hc).
    unfold unmarked in *. simpl.
    pose proof (size_mark (safes st') c HcU Hn). destruct b; lia.
  - intros st' b c (s & Hs & Hc)%elem_of_collect_mines Hle Hn.
    assert (c ∈ U) as HcU by (apply (HU s Hs), known_mines_subseteq, Hc).
    unfold unmarked in *. simpl.
    pose proof (size_mark (mines st') c HcU Hn). destruct b; lia.
Qed.

Lemma infer_phase_unmarked su :
  unmarked U (infer_phase su).1 = unmarked U su.1.
Proof.
  unfold unmarked.
  by destruct (infer_phase_frame su) as (_ & _ & _ & -> & ->).
Qed.

Lemma unseen_bound st : (unseen U st ≤ size (subsets U))%nat.
Proof. unfold unseen. apply subseteq_size. set_solver. Qed.

Context (M : gset cell).

(** Staging a sentence uses up one unit of [unseen]. *)
Lemma infer_phase_unseen st :
  consistent M st → within U st → infer (knowledge st) ≠ [] →
  (unseen U (infer_phase (st, false)).1 < unseen U st)%nat.
Proof.
  intros Hst HU Hne.
  destruct (infer (knowledge st)) as [|x news] eqn:E; [done|].
  assert (x ∈ infer (knowledge st)) as Hx by (rewrite E; by left).
  pose proof (infer_sound_sentences M _ (proj1 Hst)) as Hsound.
  rewrite Forall_forall in Hsound. specialize (Hsound x Hx).
  pose proof (within_infer_phase (st, false) HU) as HU'.
  assert (x ∈ knowledge (infer_phase (st, false)).1) as Hx'.
  { rewrite infer_phase_knowledge. apply elem_of_app. by right. }
  apply infer_sound in Hx as (_ & _ & _ & _ & _ & _ & _ & _ & Hnk & _).
  unfold unseen. apply subset_size. split.
  - intros X [HX Hn]%elem_of_difference. apply elem_of_difference.
    split; [done|]. intros HX'. apply Hn. apply elem_of_cellsets.
    apply elem_of_cellsets in HX' as (s & Hs & <-). exists s. split; [|done].
    rewrite infer_phase_knowledge. apply elem_of_app. by left.
  - intros Hsub. assert (cells x ∈ subsets U ∖ cellsets st) as Hc.
    { apply elem_of_difference. split.
      - apply elem_of_subsets. unfold within in HU'.
        rewrite Forall_forall in HU'. by apply HU'.
      - intros (s & Hs & Hcs)%elem_of_cellsets. apply Hnk.
        destruct Hst as [Hk _]. rewrite Forall_forall in Hk.
        by rewrite <- (sound_sentence_inj M s x (Hk s Hs) Hsound Hcs). }
    apply Hsub in Hc. apply elem_of_difference in Hc as [_ Hc].
    apply Hc, elem_of_cellsets. by exists x.
Qed.

(** A pass that asks for another one lowers the measure. *)
Lemma closure_pass_measure st :
  consistent M st → within U st → (closure_pass st).2 = true →
  (measure U (closure_pass st).1 < measure U st)%nat.
Proof.
  intros Hst HU Hupd. unfold closure_pass, measure in *.
  pose proof (mark_phase_unmarked st HU) as Hm.
  pose proof (mark_phase_false st) as Hf.
  rewrite infer_phase_flag in Hupd. rewrite infer_phase_unmarked.
  pose proof (unseen_bound (infer_phase (mark_phase st)).1) as Hb.
  pose proof (unseen_bound st) as Hb0.
  destruct (mark_phase st) as [st1 b1] eqn:E; simpl in *.
  destruct b1.
  - assert (unmarked U st1 < unmarked U st)%nat by lia. nia.
  - rewrite Hf in * by done. apply bool_decide_eq_true in Hupd.
    pose proof (infer_phase_unseen st Hst HU Hupd). lia.
Qed.

Lemma closure_loop_terminates_within n st :
  consistent M st → within U st → (measure U st < n)%nat →
  ∃ st', closure_loop n st = Some st'.
Proof.
  revert st. induction n as [|n IH]; intros st Hst HU Hn; [lia|].
  rewrite closure_loop_S.
  destruct (closure_pass st).2 eqn:E; [|by eexists].
  apply IH.
  - by apply closure_pass_consistent.
  - by apply within_closure_pass.
  - pose proof (closure_pass_measure st Hst HU E) as Hlt.
    revert Hn Hlt.
    generalize (measure U st) (measure U (closure_pass st).1). lia.
Qed.

End Measure.

(** The loop ends whenever the knowledge it starts from agrees with some
    board, within [measure + 1] passes. *)
Lemma closure_loop_terminates M st :
  consistent M st →
  ∃ st', closure_loop (S (measure (universe st) st)) st = Some st'.
Proof.
  intros Hst. eapply closure_loop_terminates_within; [done| |].
  - apply within_universe.
  - apply Nat.lt_succ_diag_r.
Qed.

(** ** A run on which the loop never ends *)

Lemma looping_start_reached :
  observe_all 2 looping_obs (init 1 4) = Some looping_start.
Proof. vm_compute. reflexivity. Qed.

Lemma looping_ingest : looping (ingest (0, 2) 7 looping_start).
Proof. apply (bool_decide_unpack _). vm_compute. exact I. Qed.

Lemma c1_ne_c3 : c1 ≠ c3.
Proof. done. Qed.

Lemma looping_sentence_known s :
  looping_sentence s → Sent.known_safes s = ∅ ∧ Sent.known_mines s = ∅.
Proof.
  unfold Sent.known_safes, Sent.known_mines. intros Hs.
  assert (count s ≠ 0 ∧ Z.of_nat (size (cells s)) ≠ count s) as [H0 Hsz].
  { destruct Hs as [[Hc Hn]|[Hc Hn]].
    - rewrite Hc.
      replace (size ({[c1; c3]} : gset cell)) with 2%nat by (by vm_compute).
      lia.
    - assert (size (cells s) = 1%nat) as ->;
        [|Z.div_mod_to_equations; lia].
      destruct Hc as [-> | ->]; apply (size_singleton (C:=gset cell)). }
  rewrite !decide_False; [done|tauto|done].
Qed.

(** No sentence of the run is trivially decided: the marking loops do
    nothing. *)
Lemma looping_mark_phase st : looping st → mark_phase st = (st, false).
Proof.
  intros [Hk _]. rewrite Forall_forall in Hk. unfold mark_phase.
  assert (collect_safes (knowledge st) = ∅) as ->.
  { apply set_eq. intros c. rewrite elem_of_collect_safes. split; [|set_solver].
    intros (s & Hs & Hc).
    by rewrite (proj1 (looping_sentence_known s (Hk s Hs))) in Hc. }
  assert (collect_mines (knowledge st) = ∅) as ->.
  { apply set_eq. intros c. rewrite elem_of_collect_mines. split; [|set_solver].
    intros (s & Hs & Hc).
    by rewrite (proj2 (looping_sentence_known s (Hk s Hs))) in Hc. }
  by rewrite elements_empty.
Qed.

Lemma count_bounded (k : list Sentence) : ∃ b, Forall (λ s, count s <= b) k.
Proof.
  induction k as [|s k [b IH]].
  - exists 0. constructor.
  - exists (Z.max b (count s)). constructor; [lia|].
    eapply Forall_impl; [exact IH|]. simpl. lia.
Qed.

(** Step 5) always stages a sentence: a knowledge base closed under the
    subset rule would hold [{c1} = 2 + 3 i] for every [i]. *)
Lemma looping_infer st : looping st → infer (knowledge st) ≠ [].
Proof.
  intros (Hk & H4 & H7 & H2) He.
  assert (∀ A B, A ∈ knowledge st → B ∈ knowledge st →
            cells A ≠ ∅ → cells A ⊆ cells B → cells B ∖ cells A ≠ ∅ →
            derived A B ∈ knowledge st) as Hclosed.
  { intros A B HA HB ???. pose proof (infer_complete _ A B HA HB) as Hc.
    rewrite He, app_nil_r in Hc. by apply Hc. }
  pose proof c1_ne_c3 as Hne.
  assert (∀ n, mkSentence {[c1]} n ∈ knowledge st →
               mkSentence {[c1]} (n + 3) ∈ knowledge st) as Hstep.
  { intros n Hn.
    pose proof (Hclosed _ _ Hn H4) as Hd. simpl in Hd.
    unfold derived in Hd. simpl in Hd.
    replace ({[c1; c3]} ∖ {[c1]}) with ({[c3]} : gset cell) in Hd by set_solver.
    specialize (Hd ltac:(set_solver) ltac:(set_solver) ltac:(set_solver)).
    pose proof (Hclosed _ _ Hd H7) as Hd'. unfold derived in Hd'. simpl in Hd'.
    replace ({[c1; c3]} ∖ {[c3]}) with ({[c1]} : gset cell) in Hd' by set_solver.
    specialize (Hd' ltac:(set_solver) ltac:(set_solver) ltac:(set_solver)).
    by replace (7 - (4 - n)) with (n + 3) in Hd' by lia. }
  assert (∀ i : nat, mkSentence {[c1]} (2 + 3 * Z.of_nat i) ∈ knowledge st)
    as Hall.
  { induction i as [|i IH].
    - by replace (2 + 3 * Z.of_nat 0) with 2 by lia.
    - replace (2 + 3 * Z.of_nat (S i)) with (2 + 3 * Z.of_nat i + 3) by lia.
      by apply Hstep. }
  destruct (count_bounded (knowledge st)) as [b Hb].
  rewrite Forall_forall in Hb.
  specialize (Hb _ (Hall (Z.to_nat (Z.max b 0)))). simpl in Hb. lia.
Qed.

(** What step 5) stages on such a knowledge base is again a sentence of the
    run. *)
Lemma looping_staged k x :
  Forall looping_sentence k → x ∈ infer k → looping_sentence x.
Proof.
  intros Hk Hx. rewrite Forall_forall in Hk.
  apply infer_sound in Hx
    as (s1 & s2 & H1 & H2 & _ & Hne & Hsub & -> & _ & Hcells).
  pose proof c1_ne_c3 as Hc.
  unfold derived in *. simpl in *. unfold looping_sentence. simpl.
  destruct (Hk _ H1) as [[E1 N1]|[E1 N1]], (Hk _ H2) as [[E2 N2]|[E2 N2]].
  - exfalso. apply Hcells. rewrite E1, E2. set_solver.
  - exfalso. rewrite E1 in Hsub. destruct E2 as [E2|E2]; rewrite E2 in Hsub;
      set_solver.
  - right. split.
    + rewrite E2. destruct E1 as [-> | ->]; [right|left]; set_solver.
    + destruct N2 as [-> | ->]; Z.div_mod_to_equations; lia.
  - exfalso. apply Hcells.
    destruct E1 as [E1|E1], E2 as [E2|E2]; rewrite E1, E2 in *; set_solver.
Qed.

Lemma looping_closure_pass st :
  looping st → (closure_pass st).2 = true ∧ looping (closure_pass st).1.
Proof.
  intros Hst. pose proof (looping_infer st Hst) as Hne.
  unfold closure_pass. rewrite (looping_mark_phase st Hst).
  split.
  - rewrite infer_phase_flag. simpl. by rewrite bool_decide_eq_true_2.
  - destruct Hst as (Hk & H4 & H7 & H2). unfold looping.
    rewrite infer_phase_knowledge. simpl. split_and!.
    + apply Forall_app. split; [done|]. apply Forall_forall.
      intros x Hx. by apply (looping_staged (knowledge st)).
    + apply elem_of_app. by left.
    + apply elem_of_app. by left.
    + apply elem_of_app. by left.
Qed.

Lemma looping_closure_loop fuel st : looping st → closure_loop fuel st = None.
Proof.
  revert st. induction fuel as [|fuel IH]; intros st Hst; [done|].
  rewrite closure_loop_S.
  destruct (looping_closure_pass st Hst) as [-> Hst']. by apply IH.
Qed.

(** ** Calls and sequences of calls *)

Lemma add_knowledge_frame fuel c n st st' :
  add_knowledge fuel c n st = Some st' →
  height st' = height st ∧ width st' = width st ∧
  moves_made st' = {[c]} ∪ moves_made st ∧
  {[c]} ∪ safes st ⊆ safes st' ∧ mines st ⊆ mines st'.
Proof.
  unfold add_knowledge.
  destruct (closure_loop _ _) as [st1|] eqn:E; [|done]. intros [= <-].
  apply closure_loop_frame in E as (Hh & Hw & Hm & Hs & Hn).
  destruct (ingest_frame c n st) as (Eh & Ew & Em & Es & En).
  simpl. rewrite Hh, Hw, Hm, Eh, Ew, Em. rewrite Es in Hs. rewrite En in Hn.
  done.
Qed.

Lemma run_call_frame fuel op st st' :
  run_call fuel op st = Some st' →
  height st' = height st ∧ width st' = width st ∧
  safes st ⊆ safes st' ∧ mines st ⊆ mines st'.
Proof.
  destruct op as [c n|c|c]; simpl.
  - intros (? & ? & ? & ? & ?)%add_knowledge_frame. split_and!; set_solver.
  - intros [= <-]. simpl. split_and!; set_solver.
  - intros [= <-]. simpl. split_and!; set_solver.
Qed.

Lemma observe_all_frame fuel obs st st' :
  observe_all fuel obs st = Some st' →
  height st' = height st ∧ width st' = width st ∧
  safes st ⊆ safes st' ∧ mines st ⊆ mines st'.
Proof.
  revert st. induction obs as [|[c n] obs IH]; intros st; simpl.
  - by intros [= <-].
  - destruct (add_knowledge fuel c n st) as [st1|] eqn:E; [|done].
    apply add_knowledge_frame in E as (Hh & Hw & _ & Hs & Hm).
    intros (-> & -> & ? & ?)%IH. split_and!; set_solver.
Qed.

(** The loop goes through passes only. *)
Lemma closure_loop_steps M fuel st st' :
  closure_loop fuel st = Some st' → rtc (step M) st st'.
Proof.
  revert st. induction fuel as [|fuel IH]; intros st; [done|].
  rewrite closure_loop_S. destruct (closure_pass st).2.
  - intros H%IH. eapply rtc_l; [apply step_pass|done].
  - intros [= <-]. apply rtc_once, step_pass.
Qed.

Lemma add_knowledge_steps M fuel c n st st' :
  truthful M (height st) (width st) c n →
  add_knowledge fuel c n st = Some st' → rtc (step M) st st'.
Proof.
  intros Ht. unfold add_knowledge.
  destruct (closure_loop _ _) as [st1|] eqn:E; [|done]. intros [= <-].
  eapply rtc_l; [by apply step_ingest|].
  eapply rtc_r; [by eapply closure_loop_steps|apply step_cleanup].
Qed.

Lemma run_calls_steps M fuel ops st st' :
  Forall (truthful_call M (height st) (width st)) ops →
  run_calls fuel ops st = Some st' → rtc (step M) st st'.
Proof.
  revert st. induction ops as [|op ops IH]; intros st Hops; simpl.
  - by intros [= <-].
  - apply Forall_cons in Hops as [Hop Hops].
    destruct (run_call fuel op st) as [st1|] eqn:E; [|done]. intros Hrun.
    pose proof (run_call_frame _ _ _ _ E) as (Hh & Hw & _ & _).
    eapply rtc_trans; [|apply IH; [by rewrite Hh, Hw|done]].
    destruct op as [c n|c|c]; simpl in *.
    + by eapply add_knowledge_steps.
    + injection E as <-. by apply rtc_once, step_mark_safe.
    + injection E as <-. by apply rtc_once, step_mark_mine.
Qed.

Lemma step_consistent M st st' :
  consistent M st → step M st st' → consistent M st'.
Proof.
  intros Hst Hstep. destruct Hstep.
  - by apply ingest_consistent.
  - by apply closure_pass_consistent.
  - by apply cleanup_consistent.
  - by apply mark_safe_consistent.
  - by apply mark_mine_consistent.
Qed.

Lemma steps_consistent M st st' :
  consistent M st → rtc (step M) st st' → consistent M st'.
Proof.
  intros Hst Hsteps. induction Hsteps as [|st st1 st' H1 _ IH]; [done|].
  apply IH. by eapply step_consistent.
Qed.

Lemma init_consistent M h w : consistent M (init h w).
Proof. split_and!; [constructor|set_solver..]. Qed.

(** ** The state the method returns is a fixpoint too *)

Lemma mark_new_safes_true l st : (mark_new_safes l (st, true)).2 = true.
Proof.
  apply (mark_new_safes_ind (λ _ b, b = true)); done.
Qed.

Lemma mark_new_mines_true l st : (mark_new_mines l (st, true)).2 = true.
Proof.
  apply (mark_new_mines_ind (λ _ b, b = true)); done.
Qed.

Lemma mark_new_safes_noop l st b :
  (∀ c, c ∈ l → c ∈ safes st) → mark_new_safes l (st, b) = (st, b).
Proof.
  unfold mark_new_safes. induction l as [|c l IH]; intros Hl; simpl; [done|].
  rewrite decide_True by (apply Hl; by left).
  apply IH. intros c' ?. apply Hl. by right.
Qed.

Lemma mark_new_mines_noop l st b :
  (∀ c, c ∈ l → c ∈ mines st) → mark_new_mines l (st, b) = (st, b).
Proof.
  unfold mark_new_mines. induction l as [|c l IH]; intros Hl; simpl; [done|].
  rewrite decide_True by (apply Hl; by left).
  apply IH. intros c' ?. apply Hl. by right.
Qed.

Lemma mark_new_safes_flag l st :
  (mark_new_safes l (st, false)).2 = false → ∀ c, c ∈ l → c ∈ safes st.
Proof.
  induction l as [|c l IH]; intros Hf c' Hc'; [by apply elem_of_nil in Hc'|].
  unfold mark_new_safes in Hf. simpl in Hf.
  destruct (decide (c ∈ safes st)) as [Hc|Hc]; simpl in Hf.
  - apply elem_of_cons in Hc' as [->|Hc']; [done|]. by apply IH.
  - fold (mark_new_safes l (mark_safe c st, true)) in Hf.
    by rewrite mark_new_safes_true in Hf.
Qed.

Lemma mark_new_mines_flag l st :
  (mark_new_mines l (st, false)).2 = false → ∀ c, c ∈ l → c ∈ mines st.
Proof.
  induction l as [|c l IH]; intros Hf c' Hc'; [by apply elem_of_nil in Hc'|].
  unfold mark_new_mines in Hf. simpl in Hf.
  destruct (decide (c ∈ mines st)) as [Hc|Hc]; simpl in Hf.
  - apply elem_of_cons in Hc' as [->|Hc']; [done|]. by apply IH.
  - fold (mark_new_mines l (mark_mine c st, true)) in Hf.
    by rewrite mark_new_mines_true in Hf.
Qed.

(** The marking loops do nothing exactly when every pending cell is
    already recorded. *)
Lemma mark_phase_noop st :
  mark_phase st = (st, false) ↔
  collect_safes (knowledge st) ⊆ safes st ∧
  collect_mines (knowledge st) ⊆ mines st.
Proof.
  unfold mark_phase. split.
  - intros H.
    destruct (mark_new_safes _ (st, false)) as [st1 b1] eqn:E1.
    destruct b1.
    { pose proof (mark_new_mines_true
        (elements (collect_mines (knowledge st))) st1) as Ht.
      rewrite H in Ht. done. }
    pose proof (mark_new_safes_flag (elements (collect_safes (knowledge st))) st)
      as Hs. rewrite E1 in Hs. specialize (Hs eq_refl).
    rewrite (mark_new_safes_noop _ st false Hs) in E1. injection E1 as <-.
    pose proof (mark_new_mines_flag (elements (collect_mines (knowledge st))) st)
      as Hm. rewrite H in Hm. specialize (Hm eq_refl).
    split; intros c Hc; [apply Hs|apply Hm]; by apply elem_of_elements.
  - intros [Hs Hm]. rewrite mark_new_safes_noop, mark_new_mines_noop; [done|..].
    + intros c Hc%elem_of_elements. by apply Hm.
    + intros c Hc%elem_of_elements. by apply Hs.
Qed.

Lemma closure_pass_noop st :
  closure_pass st = (st, false) ↔
  mark_phase st = (st, false) ∧ infer (knowledge st) = [].
Proof.
  unfold closure_pass. split.
  - intros H. assert ((infer_phase (mark_phase st)).2 = false) as Hf
      by (by rewrite H).
    pose proof (infer_phase_false _ Hf) as He. rewrite H in He.
    split; [done|]. rewrite <- He in H. rewrite <- He in Hf.
    rewrite infer_phase_flag in Hf. simpl in Hf.
    apply bool_decide_eq_false in Hf. by apply dec_stable in Hf.
  - intros [-> He]. unfold infer_phase. simpl. by rewrite He.
Qed.

Lemma collect_safes_cleanup st :
  collect_safes (knowledge (cleanup st)) ⊆ collect_safes (knowledge st).
Proof.
  intros c (s & Hs & Hc)%elem_of_collect_safes. apply elem_of_collect_safes.
  exists s. split; [|done]. simpl in Hs. by apply list_elem_of_filter in Hs as [_ ?].
Qed.

Lemma collect_mines_cleanup st :
  collect_mines (knowledge (cleanup st)) ⊆ collect_mines (knowledge st).
Proof.
  intros c (s & Hs & Hc)%elem_of_collect_mines. apply elem_of_collect_mines.
  exists s. split; [|done]. simpl in Hs. by apply list_elem_of_filter in Hs as [_ ?].
Qed.

Lemma infer_cleanup k :
  infer k = [] → infer (filter (λ s, cells s ≠ ∅) k) = [].
Proof.
  intros He. destruct (infer (filter _ k)) as [|x l] eqn:E; [done|exfalso].
  assert (x ∈ infer (filter (λ s, cells s ≠ ∅) k)) as Hx
    by (rewrite E; by left).
  apply infer_sound in Hx
    as (s1 & s2 & H1 & H2 & _ & Hne & Hsub & -> & Hnk & Hcells).
  apply list_elem_of_filter in H1 as [_ H1].
  apply list_elem_of_filter in H2 as [_ H2].
  pose proof (infer_complete k s1 s2 H1 H2 Hne Hsub Hcells) as Hin.
  rewrite He, app_nil_r in Hin. apply Hnk, list_elem_of_filter. done.
Qed.

(** Dropping the sentences without cells keeps a fixpoint a fixpoint. *)
Lemma cleanup_fixpoint st :
  closure_pass st = (st, false) → closure_pass (cleanup st) = (cleanup st, false).
Proof.
  rewrite !closure_pass_noop, !mark_phase_noop. intros [[Hs Hm] He].
  split_and!.
  - etrans; [apply collect_safes_cleanup|done].
  - etrans; [apply collect_mines_cleanup|done].
  - by apply infer_cleanup.
Qed.

(** ** What holds when the loop has ended *)

(** The knowledge base is closed under the subset rule. *)
Lemma closure_loop_closed fuel st st' A B :
  closure_loop fuel st = Some st' →
  A ∈ knowledge st' → B ∈ knowledge st' →
  cells A ≠ ∅ → cells A ⊆ cells B → cells B ∖ cells A ≠ ∅ →
  derived A B ∈ knowledge st'.
Proof.
  intros [_ He]%closure_loop_fixpoint%closure_pass_noop HA HB Hne Hsub Hdiff.
  pose proof (infer_complete _ A B HA HB Hne Hsub Hdiff) as Hin.
  by rewrite He, app_nil_r in Hin.
Qed.

(** Every cell that a sentence decides is recorded. *)
Lemma closure_loop_decided fuel st st' s :
  closure_loop fuel st = Some st' → s ∈ knowledge st' →
  Sent.known_safes s ⊆ safes st' ∧ Sent.known_mines s ⊆ mines st'.
Proof.
  intros [[Hs Hm]%mark_phase_noop _]%closure_loop_fixpoint%closure_pass_noop Hin.
  split; intros c Hc.
  - apply Hs, elem_of_collect_safes. by exists s.
  - apply Hm, elem_of_collect_mines. by exists s.
Qed.

(** ** Truthful calls always return *)

Lemma add_knowledge_mono fuel fuel' c n st st' :
  add_knowledge fuel c n st = Some st' → (fuel ≤ fuel')%nat →
  add_knowledge fuel' c n st = Some st'.
Proof.
  unfold add_knowledge.
  destruct (closure_loop fuel _) as [st1|] eqn:E; [|done]. intros [= <-] Hle.
  by rewrite (closure_loop_mono _ _ _ _ E Hle).
Qed.

Lemma run_call_mono fuel fuel' op st st' :
  run_call fuel op st = Some st' → (fuel ≤ fuel')%nat →
  run_call fuel' op st = Some st'.
Proof. destruct op; simpl; [apply add_knowledge_mono|done..]. Qed.

Lemma run_calls_mono fuel fuel' ops st st' :
  run_calls fuel ops st = Some st' → (fuel ≤ fuel')%nat →
  run_calls fuel' ops st = Some st'.
Proof.
  revert st. induction ops as [|op ops IH]; intros st; simpl; [done|].
  destruct (run_call fuel op st) as [st1|] eqn:E; [|done]. intros Hrun Hle.
  rewrite (run_call_mono _ _ _ _ _ E Hle). by apply IH.
Qed.

Lemma add_knowledge_returns M st c n :
  consistent M st → truthful M (height st) (width st) c n →
  ∃ fuel st', add_knowledge fuel c n st = Some st'.
Proof.
  intros Hst Ht. pose proof (ingest_consistent M c n st Hst Ht) as Hi.
  destruct (closure_loop_terminates M _ Hi) as [st1 H1].
  eexists _, (cleanup st1). unfold add_knowledge. by rewrite H1.
Qed.

Lemma run_calls_returns M ops st :
  consistent M st → Forall (truthful_call M (height st) (width st)) ops →
  ∃ fuel st', run_calls fuel ops st = Some st'.
Proof.
  revert st. induction ops as [|op ops IH]; intros st Hst Hops.
  - by exists 0%nat, st.
  - apply Forall_cons in Hops as [Hop Hops].
    assert (∃ f1 st1, run_call f1 op st = Some st1) as (f1 & st1 & H1).
    { destruct op as [c n|c|c]; simpl in *.
      - by eapply add_knowledge_returns.
      - by exists 0%nat, (mark_safe c st).
      - by exists 0%nat, (mark_mine c st). }
    pose proof (run_call_frame _ _ _ _ H1) as (Hh & Hw & _ & _).
    destruct (IH st1) as (f2 & st2 & H2).
    { apply (steps_consistent M st); [done|].
      apply (run_calls_steps M f1 [op]); [by repeat constructor|].
      simpl. by rewrite H1. }
    { by rewrite Hh, Hw. }
    exists (f1 `max` f2)%nat, st2. simpl.
    rewrite (run_call_mono f1 _ _ _ _ H1) by lia.
    apply (run_calls_mono f2); [done|lia].
Qed.

(** ** The marking loops do not depend on the order of iteration

    Python does not specify the order in which a [for] loop visits a set.
    The two marking loops give the same agent and the same flag for every
    order. *)

Lemma sent_mark_safe_comm x y s :
  Sent.mark_safe x (Sent.mark_safe y s) = Sent.mark_safe y (Sent.mark_safe x s).
Proof.
  unfold Sent.mark_safe. destruct s as [X n]; simpl.
  repeat (case_decide; simpl in *); try done; try (f_equal; set_solver);
    exfalso; set_solver.
Qed.

Lemma sent_mark_mine_comm x y s :
  Sent.mark_mine x (Sent.mark_mine y s) = Sent.mark_mine y (Sent.mark_mine x s).
Proof.
  unfold Sent.mark_mine. destruct s as [X n]; simpl.
  repeat (case_decide; simpl in *); try done; try (f_equal; set_solver);
    exfalso; set_solver.
Qed.

Lemma mark_safe_comm x y st :
  mark_safe x (mark_safe y st) = mark_safe y (mark_safe x st).
Proof.
  unfold mark_safe. simpl. f_equal; [set_solver|].
  rewrite <- !list_fmap_compose. apply list_fmap_ext.
  intros _ s _. apply sent_mark_safe_comm.
Qed.

Lemma mark_mine_comm x y st :
  mark_mine x (mark_mine y st) = mark_mine y (mark_mine x st).
Proof.
  unfold mark_mine. simpl. f_equal; [set_solver|].
  rewrite <- !list_fmap_compose. apply list_fmap_ext.
  intros _ s _. apply sent_mark_mine_comm.
Qed.

Lemma mark_new_safes_perm l l' su :
  l ≡ₚ l' → mark_new_safes l su = mark_new_safes l' su.
Proof.
  unfold mark_new_safes. intros Hp. revert su.
  induction Hp as [|x l l' _ IH|x y l|l l' l'' _ IH1 _ IH2]; intros su; simpl.
  - done.
  - apply IH.
  - f_equal. destruct su as [st b].
    destruct (decide (x = y)) as [->|Hne]; [done|]. simpl.
    destruct (decide (x ∈ safes st)) as [Hx|Hx],
      (decide (y ∈ safes st)) as [Hy|Hy]; simpl;
      repeat (first [rewrite decide_True by set_solver
                    |rewrite decide_False by set_solver]; simpl);
      try done.
    by rewrite mark_safe_comm.
  - by rewrite IH1.
Qed.

Lemma mark_new_mines_perm l l' su :
  l ≡ₚ l' → mark_new_mines l su = mark_new_mines l' su.
Proof.
  unfold mark_new_mines. intros Hp. revert su.
  induction Hp as [|x l l' _ IH|x y l|l l' l'' _ IH1 _ IH2]; intros su; simpl.
  - done.
  - apply IH.
  - f_equal. destruct su as [st b].
    destruct (decide (x = y)) as [->|Hne]; [done|]. simpl.
    destruct (decide (x ∈ mines st)) as [Hx|Hx],
      (decide (y ∈ mines st)) as [Hy|Hy]; simpl;
      repeat (first [rewrite decide_True by set_solver
                    |rewrite decide_False by set_solver]; simpl);
      try done.
    by rewrite mark_mine_comm.
  - by rewrite IH1.
Qed.

(** ** The board of the game *)

Lemma elem_of_grid_bounds h w p : p ∈ grid h w ↔ in_bounds h w p.
Proof.
  unfold grid, in_bounds. rewrite elem_of_grid, !elem_of_range. done.
Qed.

Lemma length_pairs (l1 l2 : list Z) :
  length (i ← l1; j ← l2; [(i, j)]) = (length l1 * length l2)%nat.
Proof.
  assert (∀ i : Z, length (l2 ≫= λ j, [(i, j)]) = length l2) as Hrow.
  { intros i. induction l2 as [|x l2 IH]; [done|].
    rewrite bind_cons. simpl. by rewrite IH. }
  induction l1 as [|x l1 IH]; [done|].
  rewrite bind_cons, length_app, Hrow, IH. done.
Qed.

Lemma length_grid h w :
  length (grid h w) = (Z.to_nat h * Z.to_nat w)%nat.
Proof.
  unfold grid, range. rewrite length_pairs, !length_seqZ.
  by rewrite !Z.sub_0_r.
Qed.

Lemma size_list_to_set_le (l : list cell) :
  (size (list_to_set l : gset cell) ≤ length l)%nat.
Proof.
  induction l as [|x l IH].
  - rewrite list_to_set_nil, size_empty. done.
  - rewrite list_to_set_cons. simpl.
    rewrite (size_union_alt {[x]}), (size_singleton (C:=gset cell)).
    assert (size (list_to_set l ∖ {[x]} : gset cell)
            ≤ size (list_to_set l : gset cell))%nat
      by (apply subseteq_size; set_solver). lia.
Qed.

Lemma randrange_Returned n r i :
  randrange n r = Returned i → 0 <= i < n.
Proof.
  unfold randrange. case_decide; [|done]. intros [= <-].
  by apply Z.mod_pos_bound.
Qed.

Lemma randrange_Raised n r : randrange n r = Raised ↔ n <= 0.
Proof. unfold randrange. case_decide; split; (done || lia). Qed.

Lemma cell_at_empty_board h w p :
  in_bounds h w p → Game.cell_at (Game.empty_board h w) p = Some false.
Proof.
  intros [Hi Hj]. unfold Game.cell_at, Game.empty_board, range.
  rewrite list_lookup_fmap, (lookup_seqZ_lt 0 (h - 0)) by lia. simpl.
  rewrite list_lookup_fmap, (lookup_seqZ_lt 0 (w - 0)) by lia. done.
Qed.

(** Reading the board after [self.board[i][j] = True]. *)
Lemma cell_at_alter b p q x :
  0 <= p.1 → 0 <= p.2 → 0 <= q.1 → 0 <= q.2 →
  Game.cell_at b p = Some x →
  Game.cell_at
    (alter (λ row, <[Z.to_nat p.2 := true]> row) (Z.to_nat p.1) b) q =
  if decide (q = p) then Some true else Game.cell_at b q.
Proof.
  intros Hp1 Hp2 Hq1 Hq2 Hx. unfold Game.cell_at in *.
  destruct p as [i j], q as [i' j']; simpl in *.
  destruct (decide (Z.to_nat i' = Z.to_nat i)) as [Ei|Ei].
  - rewrite Ei, list_lookup_alter_eq.
    destruct (b !! Z.to_nat i) as [row|]; [simpl in *|done].
    apply lookup_lt_Some in Hx.
    destruct (decide (Z.to_nat j' = Z.to_nat j)) as [Ej|Ej].
    + rewrite Ej, list_lookup_insert_eq by done.
      rewrite decide_True; [done|]. f_equal; lia.
    + rewrite list_lookup_insert_ne by done.
      rewrite decide_False; [done|]. intros [= Ha Hb]. apply Ej. by rewrite Hb.
  - rewrite list_lookup_alter_ne by done.
    rewrite decide_False; [done|]. intros [= Ha Hb]. apply Ei. by rewrite Ha.
Qed.

Lemma wf_empty h w :
  Game.wf {| Game.height := h; Game.width := w; Game.mines := ∅;
             Game.board := Game.empty_board h w; Game.mines_found := ∅ |}.
Proof.
  unfold Game.wf. simpl. split_and!.
  - unfold Game.empty_board, range. rewrite length_fmap, length_seqZ. lia.
  - unfold Game.empty_board. apply Forall_fmap, Forall_true. intros x. simpl.
    unfold range. rewrite length_fmap, length_seqZ. lia.
  - intros p Hp. by rewrite cell_at_empty_board.
  - set_solver.
Qed.

Lemma wf_add_mine p g :
  Game.wf g → in_bounds (Game.height g) (Game.width g) p →
  Game.cell_at (Game.board g) p = Some false →
  Game.wf (Game.add_mine p g).
Proof.
  intros (Hlen & Hrows & Hag & Hin) Hp Hc. unfold Game.wf. simpl.
  destruct Hp as [Hp1 Hp2]. split_and!.
  - by rewrite length_alter.
  - apply Forall_alter; [done|]. intros row _ Hrow.
    by rewrite length_insert.
  - intros q [Hq1 Hq2]. rewrite (cell_at_alter _ p q false) by (done || lia).
    rewrite (Hag q) by done. case_decide as E.
    + subst q. by rewrite bool_decide_eq_true_2 by set_solver.
    + f_equal. apply bool_decide_ext. set_solver.
  - intros q [->%elem_of_singleton|Hq]%elem_of_union; [done|by apply Hin].
Qed.

Lemma place_mines_unfold draws target g :
  Game.place_mines draws target g =
  if decide (Z.of_nat (size (Game.mines g)) = target) then Some (Returned g)
  else
    match draws with
    | [] => None
    | (r1, r2) :: draws' =>
        match randrange (Game.height g) r1 with
        | Raised => Some Raised
        | Returned i =>
            match randrange (Game.width g) r2 with
            | Raised => Some Raised
            | Returned j =>
                match Game.cell_at (Game.board g) (i, j) with
                | None => Some Raised
                | Some true => Game.place_mines draws' target g
                | Some false =>
                    Game.place_mines draws' target (Game.add_mine (i, j) g)
                end
            end
        end
    end.
Proof. by destruct draws. Qed.

(** What the loop of [__init__] leaves when it ends. *)
Lemma place_mines_Returned draws target g g' :
  Game.wf g → Game.place_mines draws target g = Some (Returned g') →
  Game.wf g' ∧ Z.of_nat (size (Game.mines g')) = target ∧
  Game.height g' = Game.height g ∧ Game.width g' = Game.width g ∧
  Game.mines g ⊆ Game.mines g' ∧ Game.mines_found g' = Game.mines_found g.
Proof.
  revert g. induction draws as [|[r1 r2] draws IH]; intros g Hwf;
    rewrite place_mines_unfold; case_decide as Hsz.
  - intros [= <-]. done.
  - done.
  - intros [= <-]. done.
  - destruct (randrange (Game.height g) r1) as [i|] eqn:Ei; [|done].
    destruct (randrange (Game.width g) r2) as [j|] eqn:Ej; [|done].
    apply randrange_Returned in Ei, Ej.
    destruct (Game.cell_at (Game.board g) (i, j)) as [[]|] eqn:Ec; [..|done].
    + by apply IH.
    + intros H. apply IH in H; [|by apply wf_add_mine].
      destruct H as (? & ? & ? & ? & ? & ?). simpl in *.
      split_and!; try done. set_solver.
Qed.

Lemma wf_mines_bound g :
  Game.wf g → 0 <= Game.height g → 0 <= Game.width g →
  Z.of_nat (size (Game.mines g)) <= Game.height g * Game.width g.
Proof.
  intros (_ & _ & _ & Hin) Hh Hw.
  assert (Game.mines g ⊆ list_to_set (grid (Game.height g) (Game.width g)))
    as Hsub.
  { intros p Hp. apply elem_of_list_to_set, elem_of_grid_bounds. by apply Hin. }
  apply subseteq_size in Hsub.
  pose proof (size_list_to_set_le (grid (Game.height g) (Game.width g))) as Hle.
  rewrite length_grid in Hle. nia.
Qed.

(** With a number of mines that does not fit, the loop never ends. *)
Lemma place_mines_None draws target g :
  Game.wf g → 0 < Game.height g → 0 < Game.width g →
  target < 0 ∨ Game.height g * Game.width g < target →
  Game.place_mines draws target g = None.
Proof.
  revert g. induction draws as [|[r1 r2] draws IH]; intros g Hwf Hh Hw Ht;
    rewrite place_mines_unfold;
    pose proof (wf_mines_bound g Hwf ltac:(lia) ltac:(lia)) as Hb;
    (rewrite decide_False by lia); [done|].
  unfold randrange. rewrite !decide_True by done.
  pose proof (Z.mod_pos_bound (Z.of_nat r1) (Game.height g) Hh) as Hi.
  pose proof (Z.mod_pos_bound (Z.of_nat r2) (Game.width g) Hw) as Hj.
  destruct Hwf as (Hlen & Hrows & Hag & Hin).
  rewrite (Hag (_, _)) by done. case_bool_decide.
  - by apply IH.
  - apply IH; [|done..]. apply wf_add_mine; [done..|].
    rewrite (Hag (_, _)) by done. by rewrite bool_decide_eq_false_2.
Qed.

(** *** [nearby_mines] and [is_mine] *)

Lemma length_around c : length (around c) = 8%nat.
Proof.
  rewrite around_explicit. destruct c as [a b]. simpl.
  repeat (rewrite filter_cons;
          first [rewrite decide_True by (intros [= ? ?]; lia)
                |rewrite decide_False
                   by (intros H; apply H; f_equal; lia)]).
  done.
Qed.

Lemma size_neighbors_le h w c : (size (neighbors h w c) ≤ 8)%nat.
Proof.
  unfold neighbors.
  pose proof (size_list_to_set_le (filter (in_bounds h w) (around c))) as H1.
  pose proof (length_filter (in_bounds h w) (around c)) as H2.
  rewrite length_around in H2. lia.
Qed.

Lemma nearby_mines_eq g c :
  Game.wf g →
  Game.nearby_mines g c =
  Returned (Z.of_nat (size (neighbors (Game.height g) (Game.width g) c
                              ∩ Game.mines g))).
Proof.
  intros (_ & _ & Hag & _). unfold Game.nearby_mines, neighbors.
  generalize (NoDup_around c). generalize (around c). intros l Hnd.
  enough (∀ n, foldl (λ acc p,
           match acc with
           | Raised => Raised
           | Returned n =>
               if decide (in_bounds (Game.height g) (Game.width g) p)
               then match Game.cell_at (Game.board g) p with
                    | Some true => Returned (n + 1)
                    | Some false => Returned n
                    | None => Raised
                    end
               else Returned n
           end) (Returned n) l =
         Returned (n + Z.of_nat (size (list_to_set (filter
            (in_bounds (Game.height g) (Game.width g)) l) ∩ Game.mines g))))
    as H by (by rewrite H).
  induction Hnd as [|x l Hx Hnd IH]; intros n.
  - simpl. replace (∅ ∩ Game.mines g) with (∅ : gset cell) by set_solver.
    rewrite size_empty. f_equal. lia.
  - rewrite filter_cons. cbn [foldl].
    destruct (decide (in_bounds (Game.height g) (Game.width g) x)) as [Hb|Hb];
      [|by rewrite IH].
    rewrite (Hag x Hb), list_to_set_cons. case_bool_decide as Hm; rewrite IH.
    + replace (({[x]} ∪ list_to_set
                 (filter (in_bounds (Game.height g) (Game.width g)) l))
                 ∩ Game.mines g)
        with ({[x]} ∪ (list_to_set
                 (filter (in_bounds (Game.height g) (Game.width g)) l)
                 ∩ Game.mines g) : gset cell) by set_solver.
      rewrite (size_union (C:=gset cell) {[x]}).
      * rewrite (size_singleton (C:=gset cell)). f_equal. lia.
      * apply disjoint_singleton_l. rewrite elem_of_intersection,
          elem_of_list_to_set, list_elem_of_filter. tauto.
    + replace (({[x]} ∪ list_to_set
                 (filter (in_bounds (Game.height g) (Game.width g)) l))
                 ∩ Game.mines g)
        with (list_to_set
                 (filter (in_bounds (Game.height g) (Game.width g)) l)
                 ∩ Game.mines g : gset cell) by set_solver.
      done.
Qed.

Lemma py_index_mod {A} (l : list A) (i : Z) :
  py_index l i =
  if decide (- Z.of_nat (length l) <= i < Z.of_nat (length l))
  then l !! Z.to_nat (i `mod` Z.of_nat (length l)) else None.
Proof.
  unfold py_index. destruct (decide (0 <= i)) as [H0|H0].
  - case_decide as Hr.
    + by rewrite Z.mod_small by lia.
    + apply lookup_ge_None. lia.
  - destruct (decide (- Z.of_nat (length l) <= i)) as [Hl|Hl].
    + rewrite decide_True by lia.
      rewrite <- (Z_mod_plus_full i 1), Z.mod_small by lia.
      f_equal. lia.
    + by rewrite decide_False by lia.
Qed.

Lemma is_mine_eq g c :
  Game.wf g →
  Game.is_mine g c =
  if decide (- Game.height g <= c.1 < Game.height g ∧
             - Game.width g <= c.2 < Game.width g)
  then Returned (bool_decide ((c.1 `mod` Game.height g,
                               c.2 `mod` Game.width g) ∈ Game.mines g))
  else Raised.
Proof.
  intros (Hlen & Hrows & Hag & _). unfold Game.is_mine.
  rewrite py_index_mod, Hlen.
  destruct (decide (- Game.height g <= c.1 < Game.height g)) as [H1|H1].
  - rewrite decide_True by lia. rewrite Z2Nat.id by lia.
    pose proof (Z.mod_pos_bound c.1 (Game.height g) ltac:(lia)) as Hi.
    destruct (Game.board g !! Z.to_nat (c.1 `mod` Game.height g))
      as [row|] eqn:Erow.
    + simpl. rewrite py_index_mod.
      rewrite (Forall_lookup_1 _ _ _ _ Hrows Erow).
      destruct (decide (- Game.width g <= c.2 < Game.width g)) as [H2|H2].
      * rewrite decide_True by lia. rewrite decide_True by done.
        rewrite Z2Nat.id by lia.
        pose proof (Z.mod_pos_bound c.2 (Game.width g) ltac:(lia)) as Hj.
        specialize (Hag (c.1 `mod` Game.height g, c.2 `mod` Game.width g)
                        (conj Hi Hj)).
        unfold Game.cell_at in Hag. simpl in Hag. rewrite Erow in Hag.
        simpl in Hag. by rewrite Hag.
      * rewrite decide_False by lia. by rewrite decide_False by tauto.
    + apply lookup_ge_None in Erow. lia.
  - rewrite decide_False by lia. by rewrite decide_False by tauto.
Qed.

Lemma init_wf h w target draws g :
  Game.init h w target draws = Some (Returned g) → Game.wf g.
Proof.
  unfold Game.init. intros H.
  by apply place_mines_Returned in H as [? _]; [|apply wf_empty].
Qed.

(** ** Sentences never mention a decided cell *)

Lemma tidy_mark_safe c st : tidy st → tidy (mark_safe c st).
Proof.
  unfold tidy. simpl. intros H. apply Forall_fmap.
  eapply Forall_impl; [exact H|]. intros s Hs. simpl.
  unfold Sent.mark_safe. case_decide; simpl; set_solver.
Qed.

Lemma tidy_mark_mine c st : tidy st → tidy (mark_mine c st).
Proof.
  unfold tidy. simpl. intros H. apply Forall_fmap.
  eapply Forall_impl; [exact H|]. intros s Hs. simpl.
  unfold Sent.mark_mine. case_decide; simpl; set_solver.
Qed.

Lemma tidy_mark_phase st : tidy st → tidy (mark_phase st).1.
Proof.
  intros H. apply (mark_phase_ind (λ st' _, tidy st')); [done|..].
  - intros. by apply tidy_mark_safe.
  - intros. by apply tidy_mark_mine.
Qed.

Lemma tidy_infer_phase su : tidy su.1 → tidy (infer_phase su).1.
Proof.
  unfold tidy. destruct (infer_phase_frame su) as (_ & _ & _ & -> & ->).
  rewrite infer_phase_knowledge. intros H.
  apply Forall_app. split; [done|]. apply Forall_forall. intros x Hx.
  apply infer_sound in Hx as (s1 & s2 & _ & H2 & _ & _ & _ & -> & _).
  rewrite Forall_forall in H. specialize (H _ H2). simpl in *. set_solver.
Qed.

Lemma tidy_closure_pass st : tidy st → tidy (closure_pass st).1.
Proof. intros. by apply tidy_infer_phase, tidy_mark_phase. Qed.

Lemma tidy_closure_loop fuel st st' :
  tidy st → closure_loop fuel st = Some st' → tidy st'.
Proof.
  revert st. induction fuel as [|fuel IH]; intros st Hst; [done|].
  rewrite closure_loop_S. apply tidy_closure_pass in Hst.
  destruct (closure_pass st).2; [by apply IH|]. by intros [= <-].
Qed.

Lemma tidy_cleanup st : tidy st → tidy (cleanup st).
Proof.
  unfold tidy. simpl. intros H. apply Forall_forall.
  intros s [_ Hin]%list_elem_of_filter. rewrite Forall_forall in H. by apply H.
Qed.

Lemma tidy_ingest c n st : tidy st → tidy (ingest c n st).
Proof.
  intros H. unfold tidy.
  destruct (ingest_frame c n st) as (_ & _ & _ & -> & ->).
  rewrite ingest_knowledge. apply Forall_app. split.
  - apply (tidy_mark_safe c st H).
  - case_decide; [|constructor]. repeat constructor. simpl. set_solver.
Qed.

Lemma tidy_add_knowledge fuel c n st st' :
  tidy st → add_knowledge fuel c n st = Some st' → tidy st'.
Proof.
  intros Hst. unfold add_knowledge.
  destruct (closure_loop _ _) as [st1|] eqn:E; [|done]. intros [= <-].
  apply tidy_cleanup. eapply tidy_closure_loop; [|exact E].
  by apply tidy_ingest.
Qed.

Lemma tidy_init h w : tidy (init h w).
Proof. constructor. Qed.

(** When the loop has ended on a tidy agent, a sentence that still has
    cells decides nothing. *)
Lemma closure_loop_undecided fuel st st' s :
  tidy st → closure_loop fuel st = Some st' →
  s ∈ knowledge st' → cells s ≠ ∅ → undecided s.
Proof.
  intros Hst Hloop Hs Hne.
  pose proof (tidy_closure_loop _ _ _ Hst Hloop) as Ht.
  unfold tidy in Ht. rewrite Forall_forall in Ht. specialize (Ht s Hs).
  destruct (closure_loop_decided _ _ _ s Hloop Hs) as [Hsafe Hmine].
  unfold Sent.known_safes, Sent.known_mines in *. split_and!; [done|..].
  - intros H0. rewrite decide_True in Hsafe by done. set_solver.
  - intros Hn. destruct (decide (count s = 0)) as [H0|H0]; [set_solver|].
    rewrite decide_True in Hmine by done. set_solver.
Qed.

(** ** The marking loops record every pending cell *)







(** ** Step 5) stages no sentence twice *)

Lemma infer_pair_NoDup k news s1 s2 :
  NoDup news → NoDup (infer_pair k news s1 s2).
Proof.
  intros Hnd. unfold infer_pair. repeat case_decide; try done.
  apply NoDup_app. split_and!; [done| |apply NoDup_singleton].
  intros x Hx ->%list_elem_of_singleton. tauto.
Qed.

Lemma infer_NoDup k : NoDup (infer k).
Proof.
  unfold infer, infer_rows.
  assert (∀ l1 news, NoDup news →
    NoDup (foldl (λ news s1, infer_row k news s1 k) news l1)) as H.
  { induction l1 as [|s1 l1 IH]; intros news Hn; simpl; [done|].
    apply IH. unfold infer_row. clear IH. revert news Hn.
    generalize k at 2. intros l2.
    induction l2 as [|s2 l2 IH2]; intros news Hn; simpl; [done|].
    by apply IH2, infer_pair_NoDup. }
  apply H. constructor.
Qed.

(** ** [make_safe_move] *)

Lemma make_safe_move_Some st c :
  (make_safe_move st).1 = Some c → c ∈ safes st ∧ c ∉ moves_made st.
Proof.
  unfold make_safe_move. simpl.
  destruct (list_find _ _) as [[i x]|] eqn:E; [|done]. intros [= <-].
  apply list_find_Some in E as (Hin%list_elem_of_lookup_2 & Hx & _).
  split; [by apply elem_of_elements|done].
Qed.

Lemma make_safe_move_None st :
  (make_safe_move st).1 = None ↔ safes st ⊆ moves_made st.
Proof.
  unfold make_safe_move. simpl. rewrite fmap_None, list_find_None, Forall_forall.
  split.
  - intros H c Hc. apply dec_stable. by apply H, elem_of_elements.
  - intros H c Hc%elem_of_elements Hn. by apply Hn, H.
Qed.

(** ** Marking twice, marking in another order *)

Lemma sent_mark_safe_idemp c s :
  Sent.mark_safe c (Sent.mark_safe c s) = Sent.mark_safe c s.
Proof.
  unfold Sent.mark_safe. destruct (decide (c ∈ cells s)); simpl.
  - rewrite decide_False; [done|]. simpl. set_solver.
  - by rewrite decide_False.
Qed.

Lemma sent_mark_mine_idemp c s :
  Sent.mark_mine c (Sent.mark_mine c s) = Sent.mark_mine c s.
Proof.
  unfold Sent.mark_mine. destruct (decide (c ∈ cells s)); simpl.
  - rewrite decide_False; [done|]. simpl. set_solver.
  - by rewrite decide_False.
Qed.

Lemma mark_safe_idemp c st : mark_safe c (mark_safe c st) = mark_safe c st.
Proof.
  unfold mark_safe. simpl. f_equal; [set_solver|].
  rewrite <- list_fmap_compose. apply list_fmap_ext.
  intros _ s _. apply sent_mark_safe_idemp.
Qed.

Lemma mark_mine_idemp c st : mark_mine c (mark_mine c st) = mark_mine c st.
Proof.
  unfold mark_mine. simpl. f_equal; [set_solver|].
  rewrite <- list_fmap_compose. apply list_fmap_ext.
  intros _ s _. apply sent_mark_mine_idemp.
Qed.

(** Any enumeration of a set without repetition is a permutation of the
    one the model uses. *)
Lemma enumeration_Permutation (l : list cell) (X : gset cell) :
  NoDup l → list_to_set l = X → l ≡ₚ elements X.
Proof.
  intros Hnd <-. apply NoDup_Permutation; [done|apply NoDup_elements|].
  intros x. by rewrite elem_of_elements, elem_of_list_to_set.
Qed.

(** ** What becomes of a sentence the knowledge base holds *)




Lemma passes_add j k st : passes (j + k) st = passes j (passes k st).
Proof. unfold passes. apply Nat.iter_add. Qed.

(** The loop goes through the states [passes 1 st], [passes 2 st], ... *)
Lemma closure_loop_passes fuel st st' :
  closure_loop fuel st = Some st' → ∃ k, st' = passes k st.
Proof.
  revert st. induction fuel as [|fuel IH]; intros st; [done|].
  rewrite closure_loop_S. destruct (closure_pass st).2.
  - intros [k ->]%IH. exists (k + 1)%nat. by rewrite passes_add.
  - intros [= <-]. by exists 1%nat.
Qed.



(** ** The properties of the specification *)

Lemma observe_all_run_calls fuel obs st :
  observe_all fuel obs st =
  run_calls fuel ((λ o, AddKnowledge o.1 o.2) <$> obs) st.
Proof.
  revert st. induction obs as [|[c n] obs IH]; intros st; simpl; [done|].
  destruct (add_knowledge fuel c n st); [apply IH|done].
Qed.




(** C2, as the code has it. When the agent agrees with some placement of
    mines and the observation is truthful for it (the revealed cell is not
    a mine and the count is the number of mines among its in-bounds
    neighbours), the closure loop of [add_knowledge] ends and the call
    returns: the number of passes is at most the measure of the knowledge
    base plus one, and no iteration cap is involved. *)
Theorem add_knowledge_terminates M st c n :
  consistent M st → truthful M (height st) (width st) c n →
  ∃ fuel st', add_knowledge fuel c n st = Some st'.
Proof. apply add_knowledge_returns. Qed.

Lemma add_knowledge_terminates_witness :
  consistent {[(0, 2)]} (init 1 3) ∧
  truthful {[(0, 2)]} 1 3 (0, 0) 0 ∧
  ∃ fuel st', add_knowledge fuel (0, 0) 0 (init 1 3) = Some st'.
Proof.
  assert (truthful {[(0, 2)]} 1 3 (0, 0) 0) as Ht.
  { split; [by vm_compute|]. vm_compute. reflexivity. }
  split_and!; [apply init_consistent|done|].
  apply (add_knowledge_terminates {[(0, 2)]} (init 1 3) (0, 0) 0);
    [apply init_consistent|done].
Defined.

(** C2, as stated, fails: on a board of one row and four columns, after
    [(0,0)] was reported with 2 and with 5 and [(0,2)] with 4, reporting
    [(0,2)] with 7 starts a loop that stages a new sentence in every pass
    and never ends. *)
Lemma closure_loop_can_run_forever :
  observe_all 2 looping_obs (init 1 4) = Some looping_start ∧
  ∀ fuel, add_knowledge fuel (0, 2) 7 looping_start = None.
Proof.
  split; [apply looping_start_reached|]. intros fuel. unfold add_knowledge.
  by rewrite (looping_closure_loop fuel _ looping_ingest).
Qed.

(** C3, as the code has it. Starting from an agent that agrees with a
    placement of mines [M] (a new agent does), every sentence of the
    knowledge base satisfies [0 <= count <= |cells|] after any sequence of
    calls of [add_knowledge], [mark_safe] and [mark_mine] that are truthful
    for [M], and within [add_knowledge] after the ingestion, after every
    pass of the loop and after the clean-up. Every such sequence of calls
    runs to its end. *)
Theorem sentence_invariant M st :
  consistent M st →
  (∀ st', rtc (step M) st st' → Forall sentence_ok (knowledge st')) ∧
  (∀ fuel ops st',
     Forall (truthful_call M (height st) (width st)) ops →
     run_calls fuel ops st = Some st' → Forall sentence_ok (knowledge st')) ∧
  (∀ ops,
     Forall (truthful_call M (height st) (width st)) ops →
     ∃ fuel st', run_calls fuel ops st = Some st').
Proof.
  intros Hst.
  assert (∀ st', rtc (step M) st st' → Forall sentence_ok (knowledge st'))
    as Hsteps.
  { intros st' Hst'%(steps_consistent M st st' Hst).
    apply Forall_forall. intros s Hs. by eapply consistent_sentence_ok. }
  split_and!; [done| |].
  - intros fuel ops st' Hops Hrun. by eapply Hsteps, run_calls_steps.
  - intros ops Hops. by apply (run_calls_returns M).
Qed.

Lemma sentence_invariant_witness :
  consistent {[(0, 2)]} (init 1 3) ∧
  Forall (truthful_call {[(0, 2)]} 1 3)
    [AddKnowledge (0, 0) 0; AddKnowledge (0, 1) 1] ∧
  ∃ st', run_calls 3 [AddKnowledge (0, 0) 0; AddKnowledge (0, 1) 1] (init 1 3)
           = Some st' ∧
         mines st' = {[(0, 2)]} ∧ Forall sentence_ok (knowledge st').
Proof.
  assert (Forall (truthful_call {[(0, 2)]} 1 3)
            [AddKnowledge (0, 0) 0; AddKnowledge (0, 1) 1]) as Hops.
  { repeat constructor; by vm_compute. }
  split_and!; [apply init_consistent|done|].
  destruct (run_calls 3 [AddKnowledge (0, 0) 0; AddKnowledge (0, 1) 1]
              (init 1 3)) as [st'|] eqn:E; [|by vm_compute in E].
  exists st'. split_and!; [done| |].
  - vm_compute in E. injection E as <-. by vm_compute.
  - exact (proj1 (proj2 (sentence_invariant {[(0, 2)]} (init 1 3)
                    (init_consistent _ _ _))) 3%nat _ st' Hops E).
Defined.

(** C3, as stated, fails: with a count that no board gives, the sentence
    is stored as it is. On a new 2x2 agent, [add_knowledge((0,0), 5)]
    returns with the sentence [{(0,1),(1,0),(1,1)} = 5]. *)
Lemma sentence_invariant_counterexample :
  ∃ st' s, add_knowledge 1 (0, 0) 5 (init 2 2) = Some st' ∧
           s ∈ knowledge st' ∧ size (cells s) = 3%nat ∧ count s = 5 ∧
           ¬ sentence_ok s.
Proof.
  eexists _, (mkSentence {[(0, 1); (1, 0); (1, 1)]} 5). split_and!.
  - vm_compute. reflexivity.
  - apply (bool_decide_unpack _). vm_compute. exact I.
  - by vm_compute.
  - done.
  - unfold sentence_ok. intros [_ H]. vm_compute in H. by apply H.
Qed.

(** C4, as the code has it. Across any sequence of [add_knowledge] calls
    [safes] and [mines] only grow: no cell is ever removed from either. They
    stay disjoint when the agent starts in agreement with a placement of
    mines and every observation is truthful for it. *)
Theorem safes_mines_monotone fuel obs st st' :
  observe_all fuel obs st = Some st' →
  safes st ⊆ safes st' ∧ mines st ⊆ mines st' ∧
  (∀ M, consistent M st →
        Forall (λ o, truthful M (height st) (width st) o.1 o.2) obs →
        safes st' ## mines st').
Proof.
  intros Hrun.
  pose proof (observe_all_frame _ _ _ _ Hrun) as (_ & _ & Hs & Hm).
  split_and!; [done..|]. intros M Hst Hobs.
  apply (consistent_disjoint M). apply (steps_consistent M st); [done|].
  rewrite observe_all_run_calls in Hrun.
  eapply run_calls_steps; [|exact Hrun]. apply Forall_fmap.
  eapply Forall_impl; [exact Hobs|]. by intros [c n].
Qed.

Lemma safes_mines_monotone_witness :
  ∃ st', observe_all 3 [((0, 0), 0); ((0, 1), 1)] (init 1 3) = Some st' ∧
         safes (init 1 3) ⊆ safes st' ∧ mines (init 1 3) ⊆ mines st' ∧
         safes st' ## mines st'.
Proof.
  destruct (observe_all 3 [((0, 0), 0); ((0, 1), 1)] (init 1 3))
    as [st'|] eqn:E; [|by vm_compute in E].
  exists st'. split; [done|].
  destruct (safes_mines_monotone 3%nat _ _ st' E) as (Hs & Hm & Hd).
  split_and!; [done..|].
  apply (Hd {[(0, 2)]}); [apply init_consistent|].
  repeat constructor; by vm_compute.
Defined.

(** C4, as stated, fails on disjointness: on a new 1x2 agent, after
    [(0,0)] is reported with 1 the cell [(0,1)] is a known mine; reporting
    [(0,1)] as revealed then puts it in [safes] too, and it stays in
    [mines]. *)
Lemma safes_mines_overlap :
  ∃ st', observe_all 2 [((0, 0), 1); ((0, 1), 0)] (init 1 2) = Some st' ∧
         (0, 1) ∈ safes st' ∧ (0, 1) ∈ mines st'.
Proof.
  eexists. split_and!.
  - vm_compute. reflexivity.
  - apply (bool_decide_unpack _). vm_compute. exact I.
  - apply (bool_decide_unpack _). vm_compute. exact I.
Qed.

(** C5, as the code has it. [mark_mine] never refuses a cell: for every
    agent and every cell, also one already in [safes], the call returns,
    the cell is in [mines] afterwards, [safes] and [moves_made] are as
    before, and no sentence holds the cell any more. [mark_safe] is
    symmetric. *)
Theorem mark_never_refuses c st :
  (∃ st', call_mark_mine c st = Returned st' ∧
          mines st' = {[c]} ∪ mines st ∧ safes st' = safes st ∧
          moves_made st' = moves_made st ∧
          Forall (λ s, c ∉ cells s) (knowledge st')) ∧
  (∃ st', call_mark_safe c st = Returned st' ∧
          safes st' = {[c]} ∪ safes st ∧ mines st' = mines st ∧
          moves_made st' = moves_made st ∧
          Forall (λ s, c ∉ cells s) (knowledge st')).
Proof.
  split; eexists; (split_and!; [reflexivity|done..|]); simpl;
    apply Forall_fmap, Forall_true; intros s; simpl.
  - unfold Sent.mark_mine. case_decide; set_solver.
  - unfold Sent.mark_safe. case_decide; set_solver.
Qed.

(** C5, as stated, fails: on an agent that has [(0,0)] in [safes],
    [mark_mine((0,0))] returns with the cell in both sets; and on an agent
    that has it in [mines], [mark_safe((0,0))] does. *)
Lemma mark_contradiction_accepted :
  (0, 0) ∈ safes (mark_safe (0, 0) (init 2 2)) ∧
  (∃ st', call_mark_mine (0, 0) (mark_safe (0, 0) (init 2 2)) = Returned st' ∧
          (0, 0) ∈ mines st' ∧ (0, 0) ∈ safes st') ∧
  (0, 0) ∈ mines (mark_mine (0, 0) (init 2 2)) ∧
  (∃ st', call_mark_safe (0, 0) (mark_mine (0, 0) (init 2 2)) = Returned st' ∧
          (0, 0) ∈ mines st' ∧ (0, 0) ∈ safes st').
Proof.
  split_and!; [set_solver| |set_solver|];
    (eexists; split_and!; [reflexivity|simpl; set_solver..]).
Qed.

(** C6, as the code has it. [add_knowledge] does not check the adjusted
    count: whenever the revealed cell has an undetermined in-bounds
    neighbour, the sentence appended before the loop is the set of those
    neighbours with the count given minus the number of neighbours that
    are known mines, whatever that number is; nothing is clamped. *)
Theorem ingest_appends_unchecked c n st :
  neighbors (height st) (width st) c ∖ ({[c]} ∪ safes st) ∖ mines st ≠ ∅ →
  knowledge (ingest c n st) =
    (Sent.mark_safe c <$> knowledge st) ++
    [mkSentence
       (neighbors (height st) (width st) c ∖ ({[c]} ∪ safes st) ∖ mines st)
       (n - Z.of_nat (size (neighbors (height st) (width st) c ∩ mines st)))].
Proof.
  intros Hne. rewrite ingest_knowledge. by rewrite decide_True.
Qed.

Lemma ingest_appends_unchecked_witness :
  neighbors 2 2 (0, 0) ∖ ({[(0, 0)]} ∪ ∅) ∖ ∅ ≠ (∅ : gset cell) ∧
  knowledge (ingest (0, 0) (-1) (init 2 2)) =
    [mkSentence (neighbors 2 2 (0, 0) ∖ ({[(0, 0)]} ∪ ∅) ∖ ∅)
       (-1 - Z.of_nat (size (neighbors 2 2 (0, 0) ∩ (∅ : gset cell))))].
Proof.
  assert (neighbors 2 2 (0, 0) ∖ ({[(0, 0)]} ∪ ∅) ∖ ∅ ≠ (∅ : gset cell)) as Hne
    by (apply (bool_decide_unpack _); vm_compute; exact I).
  split; [done|].
  exact (ingest_appends_unchecked (0, 0) (-1) (init 2 2) Hne).
Defined.

(** C6, as stated, fails: on a new 2x2 agent [add_knowledge((0,0), 5)]
    returns and leaves a sentence of three cells with count 5, and
    [add_knowledge((0,0), -1)] returns and leaves one with count -1. *)
Lemma out_of_range_count_accepted :
  call_add_knowledge 1 (0, 0) 5 (init 2 2) =
    Some (Returned
      {| height := 2; width := 2; moves_made := {[(0, 0)]}; mines := ∅;
         safes := {[(0, 0)]};
         knowledge := [mkSentence {[(0, 1); (1, 0); (1, 1)]} 5] |}) ∧
  call_add_knowledge 1 (0, 0) (-1) (init 2 2) =
    Some (Returned
      {| height := 2; width := 2; moves_made := {[(0, 0)]}; mines := ∅;
         safes := {[(0, 0)]};
         knowledge := [mkSentence {[(0, 1); (1, 0); (1, 1)]} (-1)] |}).
Proof. split; vm_compute; reflexivity. Qed.




(** C8. [make_random_move] never returns a cell of [moves_made] or of
    [mines]: what it returns is a cell of the board (row in
    [[0, height)], column in [[0, width)]) outside both; it returns a cell
    whenever the board has such a cell, and [None] exactly when every cell
    of the board is a move made or a known mine. *)
Theorem make_random_move_spec rnd st :
  (∀ c, (make_random_move rnd st).1 = Some c →
        in_bounds (height st) (width st) c ∧
        c ∉ moves_made st ∧ c ∉ mines st) ∧
  (∀ c, in_bounds (height st) (width st) c →
        c ∉ moves_made st → c ∉ mines st →
        ∃ c', (make_random_move rnd st).1 = Some c') ∧
  ((make_random_move rnd st).1 = None ↔
   ∀ c, in_bounds (height st) (width st) c →
        c ∈ moves_made st ∨ c ∈ mines st) ∧
  (∀ c, c ∈ all_moves st ↔ in_bounds (height st) (width st) c).
Proof.
  split_and!.
  - intros c Hc%make_random_move_elem.
    rewrite <- elem_of_all_moves. set_solver.
  - intros c Hb%elem_of_all_moves Hm Hn.
    destruct (make_random_move rnd st).1 as [c'|] eqn:E; [by exists c'|].
    apply make_random_move_None in E. set_solver.
  - rewrite make_random_move_None. split.
    + intros He c Hb%elem_of_all_moves.
      destruct (decide (c ∈ moves_made st)); [by left|right].
      apply dec_stable. set_solver.
    + intros H. apply set_eq. intros c. split; [|set_solver].
      intros [[Hb%elem_of_all_moves Hm]%elem_of_difference Hn]%elem_of_difference.
      destruct (H c Hb); done.
  - intros c. apply elem_of_all_moves.
Qed.

Lemma make_random_move_spec_witness :
  in_bounds 2 2 (1, 1) ∧
  (1, 1) ∉ moves_made (mark_mine (0, 1) (init 2 2)) ∧
  (1, 1) ∉ mines (mark_mine (0, 1) (init 2 2)) ∧
  ∃ c, (make_random_move 7 (mark_mine (0, 1) (init 2 2))).1 = Some c.
Proof.
  assert (in_bounds 2 2 (1, 1)) as Hb by (unfold in_bounds; simpl; lia).
  assert ((1, 1) ∉ moves_made (mark_mine (0, 1) (init 2 2))) as Hm
    by (apply (bool_decide_unpack _); vm_compute; exact I).
  assert ((1, 1) ∉ mines (mark_mine (0, 1) (init 2 2))) as Hn
    by (apply (bool_decide_unpack _); vm_compute; exact I).
  split_and!; [done..|].
  exact (proj1 (proj2 (make_random_move_spec 7 (mark_mine (0, 1) (init 2 2))))
           (1, 1) Hb Hm Hn).
Defined.

(** C9. Idempotence of closure. The state in which the closure loop ends
    is a fixpoint: one more pass marks no cell, stages no sentence and
    leaves [updated] false, so running the loop again returns the same
    state after one pass. The same holds for the state once the sentences
    without cells have been dropped, which is the one [add_knowledge]
    returns. *)
Theorem closure_idempotent fuel st st' :
  closure_loop fuel st = Some st' →
  closure_pass st' = (st', false) ∧
  (∀ n, closure_loop (S n) st' = Some st') ∧
  closure_pass (cleanup st') = (cleanup st', false) ∧
  (∀ n, closure_loop (S n) (cleanup st') = Some (cleanup st')).
Proof.
  intros Hfix%closure_loop_fixpoint.
  pose proof (cleanup_fixpoint st' Hfix) as Hfix'.
  split_and!; try done.
  - intros n. simpl. by rewrite Hfix.
  - intros n. simpl. by rewrite Hfix'.
Qed.

Lemma closure_idempotent_witness :
  ∃ st', closure_loop 3 kb_mine = Some st' ∧
         closure_pass st' = (st', false) ∧
         closure_pass (cleanup st') = (cleanup st', false).
Proof.
  destruct (closure_loop 3 kb_mine) as [st'|] eqn:E; [|by vm_compute in E].
  exists st'. split; [done|].
  destruct (closure_idempotent 3%nat kb_mine st' E) as (H1 & _ & H2 & _).
  by split.
Defined.

(** C10. [make_safe_move] and [make_random_move] only read the agent: the
    agent they hand back is the one they were given, with the same
    [moves_made], [safes], [mines] and sentences. *)
Theorem move_queries_read_only rnd st :
  (make_safe_move st).2 = st ∧ (make_random_move rnd st).2 = st.
Proof.
  split; [done|]. unfold make_random_move. by destruct (elements _).
Qed.

Lemma sent_mark_mixed_comm x y s :
  x ≠ y →
  Sent.mark_safe x (Sent.mark_mine y s) = Sent.mark_mine y (Sent.mark_safe x s).
Proof.
  intros Hne. unfold Sent.mark_safe, Sent.mark_mine. destruct s as [X n].
  simpl. destruct (decide (x ∈ X)) as [Hx|Hx], (decide (y ∈ X)) as [Hy|Hy];
    simpl;
    repeat (first [rewrite decide_True by set_solver
                  |rewrite decide_False by set_solver]; simpl);
    try done.
  f_equal. set_solver.
Qed.

Lemma mark_mixed_comm x y st :
  x ≠ y → mark_safe x (mark_mine y st) = mark_mine y (mark_safe x st).
Proof.
  intros Hne. unfold mark_safe, mark_mine. simpl. f_equal.
  rewrite <- !list_fmap_compose. apply list_fmap_ext.
  intros _ s _. by apply sent_mark_mixed_comm.
Qed.

Lemma board_1x3_init :
  Game.init 1 3 1 [(0%nat, 2%nat)] = Some (Returned board_1x3).
Proof. vm_compute. reflexivity. Qed.

Lemma board_1x3_wf : Game.wf board_1x3.
Proof. exact (init_wf _ _ _ _ _ board_1x3_init). Qed.

(** What the board answers about a square without a mine is truthful. *)
Lemma board_answer_truthful g c n :
  Game.wf g → in_bounds (Game.height g) (Game.width g) c →
  Game.is_mine g c = Returned false → Game.nearby_mines g c = Returned n →
  truthful (Game.mines g) (Game.height g) (Game.width g) c n.
Proof.
  intros Hwf [Hc1 Hc2] Hm Hn. split.
  - rewrite is_mine_eq in Hm by done. rewrite decide_True in Hm by lia.
    rewrite !Z.mod_small in Hm by lia. injection Hm as Hm.
    apply bool_decide_eq_false in Hm. by destruct c.
  - rewrite nearby_mines_eq in Hn by done. by injection Hn as <-.
Qed.

Lemma observe_all_consistent M fuel obs st st' :
  consistent M st →
  Forall (λ o, truthful M (height st) (width st) o.1 o.2) obs →
  observe_all fuel obs st = Some st' → consistent M st'.
Proof.
  intros Hst Hobs Hrun. apply (steps_consistent M st); [done|].
  rewrite observe_all_run_calls in Hrun.
  eapply run_calls_steps; [|exact Hrun]. apply Forall_fmap.
  eapply Forall_impl; [exact Hobs|]. by intros [c n].
Qed.

Lemma observe_all_returns M obs st :
  consistent M st →
  Forall (λ o, truthful M (height st) (width st) o.1 o.2) obs →
  ∃ fuel st', observe_all fuel obs st = Some st'.
Proof.
  intros Hst Hobs.
  destruct (run_calls_returns M ((λ o, AddKnowledge o.1 o.2) <$> obs) st Hst)
    as (fuel & st' & Hrun).
  - apply Forall_fmap. eapply Forall_impl; [exact Hobs|]. by intros [c n].
  - exists fuel, st'. by rewrite observe_all_run_calls.
Qed.

Lemma consistent_safe_move M st c :
  consistent M st → (make_safe_move st).1 = Some c → c ∉ M.
Proof.
  intros (_ & Hs & _) [Hc _]%make_safe_move_Some. set_solver.
Qed.



(** ** Further properties of the code *)

(** X1. [Sentence.known_safes] and [Sentence.known_mines] only return cells
    of the sentence, and on a sentence whose count is the number of mines
    among its cells they are right: every cell of [known_safes] is free of
    a mine and every cell of [known_mines] holds one. *)
Theorem sentence_conclusions_sound M s :
  sound_sentence M s →
  (∀ c, c ∈ Sent.known_safes s → c ∈ cells s ∧ c ∉ M) ∧
  (∀ c, c ∈ Sent.known_mines s → c ∈ cells s ∧ c ∈ M).
Proof.
  intros Hs. split; intros c Hc.
  - split; [by apply known_safes_subseteq|by eapply known_safes_sound].
  - split; [by apply known_mines_subseteq|by eapply known_mines_sound].
Qed.

Lemma sentence_conclusions_sound_witness :
  sound_sentence {[c1; c2]} (mkSentence {[c1; c2]} 2) ∧
  (∀ c, c ∈ Sent.known_mines (mkSentence {[c1; c2]} 2) →
        c ∈ cells (mkSentence {[c1; c2]} 2) ∧ c ∈ ({[c1; c2]} : gset cell)).
Proof.
  assert (sound_sentence {[c1; c2]} (mkSentence {[c1; c2]} 2)) as Hs
    by (by vm_compute).
  split; [done|].
  exact (proj2 (sentence_conclusions_sound {[c1; c2]} _ Hs)).
Defined.

(** X2. [Sentence.mark_mine] and [Sentence.mark_safe] keep a sentence true:
    if the count is the number of mines among the cells, it still is after
    a mine has been marked as a mine, or a cell without a mine as safe; and
    the marked cell is no longer in the sentence. *)
Theorem sentence_mark_sound M c s :
  sound_sentence M s →
  (c ∈ M → sound_sentence M (Sent.mark_mine c s) ∧
           c ∉ cells (Sent.mark_mine c s)) ∧
  (c ∉ M → sound_sentence M (Sent.mark_safe c s) ∧
           c ∉ cells (Sent.mark_safe c s)).
Proof.
  intros Hs. split; intros Hc; (split; [|]).
  - by apply sound_mark_mine.
  - unfold Sent.mark_mine. case_decide; set_solver.
  - by apply sound_mark_safe.
  - unfold Sent.mark_safe. case_decide; set_solver.
Qed.

Lemma sentence_mark_sound_witness :
  sound_sentence {[c3]} (mkSentence {[c1; c2; c3]} 1) ∧
  sound_sentence {[c3]} (Sent.mark_mine c3 (mkSentence {[c1; c2; c3]} 1)) ∧
  Sent.mark_mine c3 (mkSentence {[c1; c2; c3]} 1) = mkSentence {[c1; c2]} 0.
Proof.
  assert (sound_sentence {[c3]} (mkSentence {[c1; c2; c3]} 1)) as Hs
    by (by vm_compute).
  assert (c3 ∈ ({[c3]} : gset cell)) as Hc
    by (apply (bool_decide_unpack _); vm_compute; exact I).
  split_and!; [done| |by vm_compute].
  exact (proj1 (proj1 (sentence_mark_sound {[c3]} c3 _ Hs) Hc)).
Defined.

(** X3. Marking is idempotent and does not depend on the order: a second
    [mark_safe] (or [mark_mine]) of the same cell changes nothing, two
    [mark_safe] (or two [mark_mine]) calls commute, and [mark_safe] of one
    cell commutes with [mark_mine] of another one. *)
Theorem marks_idempotent_commute x y st :
  mark_safe x (mark_safe x st) = mark_safe x st ∧
  mark_mine x (mark_mine x st) = mark_mine x st ∧
  mark_safe x (mark_safe y st) = mark_safe y (mark_safe x st) ∧
  mark_mine x (mark_mine y st) = mark_mine y (mark_mine x st) ∧
  (x ≠ y → mark_safe x (mark_mine y st) = mark_mine y (mark_safe x st)).
Proof.
  split_and!.
  - apply mark_safe_idemp.
  - apply mark_mine_idemp.
  - apply mark_safe_comm.
  - apply mark_mine_comm.
  - apply mark_mixed_comm.
Qed.

Lemma marks_idempotent_commute_witness :
  c1 ≠ c3 ∧
  mark_safe c1 (mark_mine c3 kb_mine) = mark_mine c3 (mark_safe c1 kb_mine).
Proof.
  split; [done|].
  exact (proj2 (proj2 (proj2 (proj2
           (marks_idempotent_commute c1 c3 kb_mine)))) c1_ne_c3).
Defined.

(** X4. [make_safe_move] returns a cell that is known safe and is not a
    move made, whenever there is one, and [None] exactly when every known
    safe cell has been played. *)
Theorem make_safe_move_spec st :
  (∀ c, (make_safe_move st).1 = Some c → c ∈ safes st ∧ c ∉ moves_made st) ∧
  (safes st ∖ moves_made st ≠ ∅ → ∃ c, (make_safe_move st).1 = Some c) ∧
  ((make_safe_move st).1 = None ↔ safes st ⊆ moves_made st).
Proof.
  split_and!.
  - apply make_safe_move_Some.
  - intros Hne. destruct (make_safe_move st).1 as [c|] eqn:E; [by exists c|].
    apply make_safe_move_None in E. set_solver.
  - apply make_safe_move_None.
Qed.

Lemma make_safe_move_spec_witness :
  safes (mark_safe c1 (init 1 4)) ∖ moves_made (mark_safe c1 (init 1 4)) ≠ ∅ ∧
  ∃ c, (make_safe_move (mark_safe c1 (init 1 4))).1 = Some c.
Proof.
  assert (safes (mark_safe c1 (init 1 4))
            ∖ moves_made (mark_safe c1 (init 1 4)) ≠ ∅) as Hne
    by (apply (bool_decide_unpack _); vm_compute; exact I).
  split; [done|].
  exact (proj1 (proj2 (make_safe_move_spec (mark_safe c1 (init 1 4)))) Hne).
Defined.

(** X5. Soundness of the agent. After any sequence of truthful
    [add_knowledge] calls on an agent that agrees with the placement of
    mines (a new agent does), every known mine is a mine, no known safe
    cell is a mine, and the cell [make_safe_move] proposes is not a mine. *)
Theorem safe_move_never_a_mine M fuel obs st st' :
  consistent M st →
  Forall (λ o, truthful M (height st) (width st) o.1 o.2) obs →
  observe_all fuel obs st = Some st' →
  mines st' ⊆ M ∧ safes st' ## M ∧
  (∀ c, (make_safe_move st').1 = Some c → c ∉ M).
Proof.
  intros Hst Hobs Hrun.
  pose proof (observe_all_consistent M _ _ _ _ Hst Hobs Hrun) as Hst'.
  split_and!; [apply Hst'..|]. intros c. by apply consistent_safe_move.
Qed.

Lemma safe_move_never_a_mine_witness :
  ∃ st', observe_all 3 [((0, 0), 0)] (init 1 3) = Some st' ∧
         (make_safe_move st').1 = Some (0, 1) ∧
         (∀ c, (make_safe_move st').1 = Some c → c ∉ ({[(0, 2)]} : gset cell)).
Proof.
  destruct (observe_all 3 [((0, 0), 0)] (init 1 3)) as [st'|] eqn:E;
    [|by vm_compute in E].
  exists st'. split; [done|]. split.
  - vm_compute in E. injection E as <-. by vm_compute.
  - refine (proj2 (proj2 (safe_move_never_a_mine {[(0, 2)]} 3%nat
              [((0, 0), 0)] (init 1 3) st' (init_consistent _ _ _) _ E))).
    repeat constructor; by vm_compute.
Defined.

(** X6. No sentence of the knowledge base mentions a cell that is known
    safe or a known mine, and this is kept by [add_knowledge]; when
    [add_knowledge] returns on such an agent, every sentence left has
    cells and decides nothing: its count is neither 0 nor the number of its
    cells. *)
Theorem add_knowledge_leaves_undecided fuel c n st st' :
  tidy st → add_knowledge fuel c n st = Some st' →
  tidy st' ∧ Forall undecided (knowledge st').
Proof.
  intros Hst Hrun. split; [by eapply tidy_add_knowledge|].
  unfold add_knowledge in Hrun.
  destruct (closure_loop _ _) as [st1|] eqn:E; [|done].
  injection Hrun as <-. apply Forall_forall.
  intros s [Hne Hs]%list_elem_of_filter.
  eapply closure_loop_undecided; [|exact E|done..]. by apply tidy_ingest.
Qed.

Lemma add_knowledge_leaves_undecided_witness :
  tidy (init 2 2) ∧
  ∃ st', add_knowledge 1 (0, 0) 1 (init 2 2) = Some st' ∧
         knowledge st' = [mkSentence {[(0, 1); (1, 0); (1, 1)]} 1] ∧
         Forall undecided (knowledge st').
Proof.
  split; [apply tidy_init|].
  destruct (add_knowledge 1 (0, 0) 1 (init 2 2)) as [st'|] eqn:E;
    [|by vm_compute in E].
  exists st'. split; [done|]. split.
  - vm_compute in E. by injection E as <-.
  - exact (proj2 (add_knowledge_leaves_undecided 1%nat (0, 0) 1 (init 2 2) st'
                    (tidy_init 2 2) E)).
Defined.



(** X8. Step 5) of a pass stages only new sentences: none is staged twice,
    none is already in the knowledge base, none is without cells, and each
    is the difference of two distinct sentences of the knowledge base, the
    first with cells that are all cells of the second. *)
Theorem infer_stages_fresh k :
  NoDup (infer k) ∧
  (∀ x, x ∈ infer k →
        x ∉ k ∧ cells x ≠ ∅ ∧
        ∃ s1 s2, s1 ∈ k ∧ s2 ∈ k ∧ s1 ≠ s2 ∧ cells s1 ≠ ∅ ∧
                 cells s1 ⊆ cells s2 ∧ x = derived s1 s2).
Proof.
  split; [apply infer_NoDup|]. intros x Hx.
  apply infer_sound in Hx as (s1 & s2 & ? & ? & ? & ? & ? & ? & ? & ?).
  split_and!; [done..|]. by exists s1, s2.
Qed.

(** X9. The marking loops of a pass give the same agent and the same
    [updated] flag in whatever order the two pending sets are visited:
    any enumeration of them without repetition gives what the loops of the
    model give. *)
Theorem marking_order_irrelevant st (ls lm : list cell) :
  NoDup ls → list_to_set ls = collect_safes (knowledge st) →
  NoDup lm → list_to_set lm = collect_mines (knowledge st) →
  mark_new_mines lm (mark_new_safes ls (st, false)) = mark_phase st.
Proof.
  intros Hls Es Hlm Em. unfold mark_phase.
  rewrite (mark_new_safes_perm ls _ _ (enumeration_Permutation _ _ Hls Es)).
  by rewrite (mark_new_mines_perm lm _ _ (enumeration_Permutation _ _ Hlm Em)).
Qed.

Lemma marking_order_irrelevant_witness :
  mark_new_mines [] (mark_new_safes [c2; c1]
    (set_knowledge [mkSentence {[c1; c2]} 0] (init 1 4), false)) =
  mark_phase (set_knowledge [mkSentence {[c1; c2]} 0] (init 1 4)).
Proof.
  apply (marking_order_irrelevant
           (set_knowledge [mkSentence {[c1; c2]} 0] (init 1 4)) [c2; c1] []).
  - apply (bool_decide_unpack _). vm_compute. exact I.
  - vm_compute. reflexivity.
  - apply (bool_decide_unpack _). vm_compute. exact I.
  - vm_compute. reflexivity.
Defined.

(** X10. When [Minesweeper.__init__] returns, the board has the height and
    width asked for, exactly the number of mines asked for, every mine is
    on the board, a square of [self.board] is [True] exactly when its
    position is in [self.mines], and no mine has been found yet. *)
Theorem init_places_mines h w target draws g :
  Game.init h w target draws = Some (Returned g) →
  Game.height g = h ∧ Game.width g = w ∧
  Z.of_nat (size (Game.mines g)) = target ∧
  (∀ p, p ∈ Game.mines g → in_bounds h w p) ∧
  (∀ p, in_bounds h w p →
        Game.cell_at (Game.board g) p = Some (bool_decide (p ∈ Game.mines g))) ∧
  length (Game.board g) = Z.to_nat h ∧
  Forall (λ row, length row = Z.to_nat w) (Game.board g) ∧
  Game.mines_found g = ∅.
Proof.
  unfold Game.init. intros H.
  apply place_mines_Returned in H as (Hwf & Hn & Hh & Hw & _ & Hf);
    [|apply wf_empty].
  simpl in *. destruct Hwf as (Hlen & Hrows & Hag & Hin).
  rewrite Hh, Hw in *. done.
Qed.

Lemma init_places_mines_witness :
  Game.init 1 3 1 [(0%nat, 2%nat)] = Some (Returned board_1x3) ∧
  Z.of_nat (size (Game.mines board_1x3)) = 1 ∧
  (∀ p, p ∈ Game.mines board_1x3 → in_bounds 1 3 p).
Proof.
  assert (Game.init 1 3 1 [(0%nat, 2%nat)] = Some (Returned board_1x3)) as E
    by (vm_compute; reflexivity).
  split; [done|].
  destruct (init_places_mines 1 3 1 [(0%nat, 2%nat)] board_1x3 E)
    as (_ & _ & Hn & Hin & _).
  by split.
Defined.

(** X11. [Minesweeper.__init__] does not check that the mines fit: on a
    board with at least one square, when the number of mines asked for is
    negative or larger than the number of squares, the placement loop
    never ends, whatever the random draws are. *)
Theorem init_never_ends h w target draws :
  0 < h → 0 < w → target < 0 ∨ h * w < target →
  Game.init h w target draws = None.
Proof.
  intros Hh Hw Ht. unfold Game.init.
  apply place_mines_None; [apply wf_empty|done..].
Qed.

Lemma init_never_ends_witness :
  Game.init 2 2 5 [(0, 0); (0, 1); (1, 0); (1, 1); (0, 0)]%nat = None.
Proof.
  apply (init_never_ends 2 2 5); [lia|lia|right; lia].
Defined.

(** X12. Edge cases of [Minesweeper.__init__]. With no mine asked for it
    returns a board without mines at once, for any height and width, also
    zero or negative ones; with a mine asked for and a height or width
    that is not positive, [random.randrange] raises in the first pass of
    the loop. *)
Theorem init_edge_cases h w target d draws :
  Game.init h w 0 draws =
    Some (Returned {| Game.height := h; Game.width := w; Game.mines := ∅;
                      Game.board := Game.empty_board h w;
                      Game.mines_found := ∅ |}) ∧
  (target ≠ 0 → h <= 0 ∨ w <= 0 →
   Game.init h w target (d :: draws) = Some Raised).
Proof.
  split.
  - unfold Game.init. rewrite place_mines_unfold.
    cbn [Game.mines Game.height Game.width Game.board].
    rewrite decide_True; [done|]. by rewrite size_empty.
  - intros Ht Hd. unfold Game.init. rewrite place_mines_unfold.
    cbn [Game.mines Game.height Game.width Game.board].
    rewrite decide_False by (rewrite size_empty; simpl; lia).
    destruct d as [r1 r2].
    unfold randrange. destruct (decide (0 < h)); [|done].
    by rewrite decide_False by lia.
Qed.

Lemma init_edge_cases_witness :
  Game.init 0 3 1 [(0%nat, 0%nat)] = Some Raised.
Proof.
  apply (proj2 (init_edge_cases 0 3 1 (0%nat, 0%nat) [])); [lia|left; lia].
Defined.

(** X13. [Minesweeper.is_mine] on a board as [__init__] leaves it: for a
    row in [[-height, height)] and a column in [[-width, width)] it tells
    whether the square is a mine, a negative coordinate counting from the
    end as Python's list indexing does; for any other cell it raises
    [IndexError]. In particular it answers [cell in self.mines] for every
    cell of the board. *)
Theorem is_mine_spec g c :
  Game.wf g →
  Game.is_mine g c =
    (if decide (- Game.height g <= c.1 < Game.height g ∧
                - Game.width g <= c.2 < Game.width g)
     then Returned (bool_decide ((c.1 `mod` Game.height g,
                                  c.2 `mod` Game.width g) ∈ Game.mines g))
     else Raised) ∧
  (in_bounds (Game.height g) (Game.width g) c →
   Game.is_mine g c = Returned (bool_decide (c ∈ Game.mines g))).
Proof.
  intros Hwf. split; [by apply is_mine_eq|]. intros [H1 H2].
  rewrite is_mine_eq by done. rewrite decide_True by lia.
  rewrite !Z.mod_small by lia. by destruct c.
Qed.

Lemma is_mine_spec_witness :
  Game.wf board_1x3 ∧
  Game.is_mine board_1x3 (0, 2) = Returned true ∧
  Game.is_mine board_1x3 (-1, -1) = Returned true ∧
  Game.is_mine board_1x3 (0, 3) = Raised.
Proof.
  split; [apply board_1x3_wf|].
  pose proof (proj1 (is_mine_spec board_1x3 (0, 2) board_1x3_wf)) as H1.
  pose proof (proj1 (is_mine_spec board_1x3 (-1, -1) board_1x3_wf)) as H2.
  pose proof (proj1 (is_mine_spec board_1x3 (0, 3) board_1x3_wf)) as H3.
  split_and!; [rewrite H1|rewrite H2|rewrite H3]; by vm_compute.
Defined.



(** X15. The agent played against the board. On a board as [__init__]
    leaves it and an agent of the same size that agrees with it (a new
    agent does), reporting in any order cells of the board that
    [is_mine] says are free, each with the count [nearby_mines] gives,
    makes every [add_knowledge] call return, and afterwards every known
    mine of the agent is a mine of the board, no known safe cell is one,
    and the cell [make_safe_move] proposes is not one. *)
Theorem agent_sound_on_board g ai obs :
  Game.wf g → consistent (Game.mines g) ai →
  height ai = Game.height g → width ai = Game.width g →
  Forall (λ o, in_bounds (Game.height g) (Game.width g) o.1 ∧
               Game.is_mine g o.1 = Returned false ∧
               Game.nearby_mines g o.1 = Returned o.2) obs →
  ∃ fuel ai',
    observe_all fuel obs ai = Some ai' ∧
    mines ai' ⊆ Game.mines g ∧ safes ai' ## Game.mines g ∧
    (∀ c, (make_safe_move ai').1 = Some c → c ∉ Game.mines g).
Proof.
  intros Hwf Hai Hh Hw Hobs.
  assert (Forall (λ o, truthful (Game.mines g) (height ai) (width ai) o.1 o.2)
            obs) as Ht.
  { eapply Forall_impl; [exact Hobs|]. intros [c n] (Hb & Hm & Hn).
    rewrite Hh, Hw. by apply board_answer_truthful. }
  destruct (observe_all_returns _ obs ai Hai Ht) as (fuel & ai' & Hrun).
  exists fuel, ai'. split; [done|].
  pose proof (observe_all_consistent _ _ _ _ _ Hai Ht Hrun) as Hai'.
  split_and!; [apply Hai'..|]. intros c. by apply consistent_safe_move.
Qed.

Lemma agent_sound_on_board_witness :
  ∃ fuel ai',
    observe_all fuel [((0, 0), 0); ((0, 1), 1)] (init 1 3) = Some ai' ∧
    mines ai' ⊆ Game.mines board_1x3 ∧ safes ai' ## Game.mines board_1x3 ∧
    (∀ c, (make_safe_move ai').1 = Some c → c ∉ Game.mines board_1x3).
Proof.
  apply (agent_sound_on_board board_1x3 (init 1 3)
           [((0, 0), 0); ((0, 1), 1)]).
  - apply board_1x3_wf.
  - apply init_consistent.
  - reflexivity.
  - reflexivity.
  - repeat constructor; by vm_compute.
Defined.

(** X16. [make_random_move] can return every cell of the board (row in
    [[0, height)], column in [[0, width)]) that is neither a move made nor
    a known mine: for each such cell there is a draw of [random.choice]
    that selects it. *)
Theorem make_random_move_reaches st c :
  in_bounds (height st) (width st) c → c ∉ moves_made st → c ∉ mines st →
  ∃ rnd, (make_random_move rnd st).1 = Some c.
Proof.
  intros Hb%elem_of_all_moves Hm Hn.
  assert (c ∈ elements (all_moves st ∖ moves_made st ∖ mines st)) as Hc
    by (apply elem_of_elements; set_solver).
  apply list_elem_of_lookup_1 in Hc as [i Hi].
  exists i. unfold make_random_move.
  pose proof (lookup_lt_Some _ _ _ Hi) as Hlt.
  destruct (elements _) as [|x l] eqn:E; [simpl in Hlt; lia|].
  cbn [fst]. by rewrite Nat.mod_small.
Qed.

Lemma make_random_move_reaches_witness :
  ∃ rnd, (make_random_move rnd (mark_mine (0, 1) (init 2 2))).1
         = Some (1, 1).
Proof.
  apply (make_random_move_reaches (mark_mine (0, 1) (init 2 2)) (1, 1)).
  - unfold in_bounds. simpl. lia.
  - apply (bool_decide_unpack _). vm_compute. exact I.
  - apply (bool_decide_unpack _). vm_compute. exact I.
Defined.

(** X17. The two pairs of loops at the start of [add_knowledge]. The first
    collects exactly the cells of the board that touch the revealed cell
    (one row and one column away at most), are not the cell itself and are
    neither known safe nor known mines; there are at most 8 of them. The
    second lowers the count by the number of neighbours on the board that
    are known mines, so by 8 at most. *)
Theorem neighbour_loops_spec st c n :
  (∀ p, p ∈ candidate_neighbors st c ↔
        in_bounds (height st) (width st) p ∧ p ≠ c ∧
        c.1 - 1 <= p.1 <= c.1 + 1 ∧ c.2 - 1 <= p.2 <= c.2 + 1 ∧
        p ∉ safes st ∧ p ∉ mines st) ∧
  (size (candidate_neighbors st c) ≤ 8)%nat ∧
  adjusted_count st c n =
    n - Z.of_nat (size (neighbors (height st) (width st) c ∩ mines st)) ∧
  n - 8 <= adjusted_count st c n <= n.
Proof.
  pose proof (size_neighbors_le (height st) (width st) c) as H8.
  assert (size (neighbors (height st) (width st) c ∩ mines st)
          ≤ size (neighbors (height st) (width st) c))%nat
    by (apply subseteq_size; set_solver).
  assert (size (neighbors (height st) (width st) c ∖ safes st ∖ mines st)
          ≤ size (neighbors (height st) (width st) c))%nat
    by (apply subseteq_size; set_solver).
  rewrite candidate_neighbors_eq, adjusted_count_eq. split_and!; [|lia..].
  intros p. rewrite !elem_of_difference, elem_of_neighbors, elem_of_around.
  tauto.
Qed.
